(** * Butano containers: [bn::unique_ptr] and [btn::array]

    A shallow embedding of the two headers and the properties their
    interface promises.

    - [UniquePtr] follows [bn_unique_ptr.h].  Handle objects live in a
      store indexed by their identity, so that two references may name
      the same object; every call of a deleter is recorded in a log.
    - [Array] follows [btn_array.h].  The storage [Type _data[Size]] is a
      list whose length is the template parameter [Size]. *)

From stdpp Require Import gmap list strings.

Local Open Scope N_scope.

(** ** Owning handle *)

Module UniquePtr.

(** [using pointer = Type*]: an address; [nullptr] is address zero. *)
Definition pointer : Type := N.
Definition nullptr : pointer := 0.

(** The contextual conversion of a pointer to [bool] ([! a._ptr],
    [return a._ptr]). *)
Definition pointer_to_bool (p : pointer) : bool :=
  match p with
  | N0 => false
  | Npos _ => true
  end.

(** What the template parameter [Deleter] has to provide besides its call
    operator: default construction, move construction and move
    assignment.  A move yields the new state of the target and the state
    the source is left in; an assignment of an object to itself is a
    separate case, since both references then name one object. *)
Class DeleterType (D : Type) := {
  deleter_default : D;
  deleter_move_construct : D → D * D;
  deleter_move_assign : D → D → D * D;
  deleter_self_move_assign : D → D
}.

(** A deleter that is moved by copying it, as a function pointer or an
    empty function object is; the number tells deleters apart. *)
#[export] Instance trivially_movable_deleter : DeleterType nat := {
  deleter_default := 0%nat;
  deleter_move_construct src := (src, src);
  deleter_move_assign _ src := (src, src);
  deleter_self_move_assign d := d
}.

Section unique_ptr.
Context {Deleter : Type} `{!DeleterType Deleter}.

(** The two data members. *)
Record unique_ptr := mk_unique_ptr {
  _ptr : pointer;
  _deleter : Deleter
}.

(** [unique_ptr() = default] and [explicit unique_ptr(pointer ptr)]. *)
Definition default_unique_ptr : unique_ptr :=
  {| _ptr := nullptr; _deleter := deleter_default |}.

Definition make_from_pointer (ptr : pointer) : unique_ptr :=
  {| _ptr := ptr; _deleter := deleter_default |}.

(** *** Const members: functions of the object's state *)

Definition operator_bool (a : unique_ptr) : bool :=
  negb (_ptr a =? nullptr).

Definition get (a : unique_ptr) : pointer := _ptr a.

Definition get_deleter (a : unique_ptr) : Deleter := _deleter a.

(** Comparison of two handles: the addresses are compared. *)
Definition eq_ptr (a b : unique_ptr) : bool := _ptr a =? _ptr b.
Definition ne_ptr (a b : unique_ptr) : bool := negb (_ptr a =? _ptr b).
Definition lt_ptr (a b : unique_ptr) : bool := _ptr a <? _ptr b.
Definition gt_ptr (a b : unique_ptr) : bool := _ptr b <? _ptr a.
Definition le_ptr (a b : unique_ptr) : bool := _ptr a <=? _ptr b.
Definition ge_ptr (a b : unique_ptr) : bool := _ptr b <=? _ptr a.

(** Comparison of a handle with [nullptr_t]. *)
Definition eq_nullptr (a : unique_ptr) : bool := negb (pointer_to_bool (_ptr a)).
Definition ne_nullptr (a : unique_ptr) : bool := pointer_to_bool (_ptr a).
Definition lt_nullptr (a : unique_ptr) : bool := false.
Definition gt_nullptr (a : unique_ptr) : bool := pointer_to_bool (_ptr a).
Definition le_nullptr (a : unique_ptr) : bool := negb (pointer_to_bool (_ptr a)).
Definition ge_nullptr (a : unique_ptr) : bool := true.

(** *** The store of handle objects and the deleter log *)

(** A [handle] is the identity of a [unique_ptr] object: what [this]
    and a [unique_ptr&] denote. *)
Definition handle : Type := nat.

(** One call [_deleter(p)]: the deleter that ran and its argument. *)
Definition disposal : Type := Deleter * pointer.

Record world := mk_world {
  handles : gmap nat unique_ptr;
  disposals : list disposal
}.

(** Computations over the world; [None] is the use of a handle outside
    its lifetime, which the language leaves undefined. *)
Definition M (A : Type) : Type := world → option (A * world).

#[export] Instance M_ret : MRet M := λ A a w, Some (a, w).

#[export] Instance M_bind : MBind M := λ A B f m w,
  match m w with
  | Some (a, w') => f a w'
  | None => None
  end.

Definition load (this : handle) : M unique_ptr := λ w,
  match handles w !! this with
  | Some u => Some (u, w)
  | None => None
  end.

Definition store (this : handle) (u : unique_ptr) : M () := λ w,
  match handles w !! this with
  | Some _ =>
      Some ((), {| handles := <[this := u]> (handles w); disposals := disposals w |})
  | None => None
  end.

Definition read_ptr (this : handle) : M pointer :=
  u ← load this; mret (_ptr u).

Definition write_ptr (this : handle) (p : pointer) : M () :=
  u ← load this; store this {| _ptr := p; _deleter := _deleter u |}.

Definition write_deleter (this : handle) (d : Deleter) : M () :=
  u ← load this; store this {| _ptr := _ptr u; _deleter := d |}.

Definition log_disposal (d : disposal) : M () := λ w,
  Some ((), {| handles := handles w; disposals := disposals w ++ [d] |}).

(** [_deleter(p)] *)
Definition call_deleter (this : handle) (p : pointer) : M () :=
  u ← load this; log_disposal (_deleter u, p).

(** [_deleter = move(other._deleter)] *)
Definition assign_deleter (this other : handle) : M () :=
  if decide (this = other) then
    u ← load this;
    write_deleter this (deleter_self_move_assign (_deleter u))
  else
    u ← load this;
    o ← load other;
    let r := deleter_move_assign (_deleter u) (_deleter o) in
    write_deleter this r.1;;
    write_deleter other r.2.

(** Start and end of the lifetime of the object [this]. *)
Definition begin_lifetime (this : handle) (u : unique_ptr) : M () := λ w,
  match handles w !! this with
  | Some _ => None
  | None =>
      Some ((), {| handles := <[this := u]> (handles w); disposals := disposals w |})
  end.

Definition end_lifetime (this : handle) : M () := λ w,
  match handles w !! this with
  | Some _ =>
      Some ((), {| handles := delete this (handles w); disposals := disposals w |})
  | None => None
  end.

(** *** Mutating members *)

Definition release (this : handle) : M pointer :=
  result ← read_ptr this;
  write_ptr this nullptr;;
  mret result.

(** [reset()] *)
Definition reset (this : handle) : M () :=
  p ← read_ptr this;
  call_deleter this p;;
  write_ptr this nullptr.

(** [reset(pointer ptr)] *)
Definition reset_to (this : handle) (ptr : pointer) : M () :=
  cur ← read_ptr this;
  if negb (ptr =? cur) then
    reset this;;
    write_ptr this ptr
  else mret ().

(** [unique_ptr(unique_ptr&& other)]: the members are initialised in
    the order of their declaration, then the object is alive. *)
Definition move_construct (this other : handle) : M () :=
  p ← release other;
  o ← load other;
  let r := deleter_move_construct (_deleter o) in
  write_deleter other r.2;;
  begin_lifetime this {| _ptr := p; _deleter := r.1 |}.

(** [operator=(unique_ptr&& other)] *)
Definition move_assign (this other : handle) : M () :=
  p ← release other;
  reset_to this p;;
  assign_deleter this other.

(** How often the log has a deleter applied to the address [p]. *)
Definition calls_on (p : pointer) (log : list disposal) : nat :=
  length (filter (λ d, d.2 = p) log).

(** [~unique_ptr()] *)
Definition destructor (this : handle) : M () :=
  reset this;;
  end_lifetime this.

End unique_ptr.

(** *** The rest of the header *)

(** How a checked access ends: with a value, or halted by an assertion. *)
Inductive checked (A : Type) : Type :=
  | Value (a : A)
  | BasicContractViolation (message : string).
Arguments Value {A} a.
Arguments BasicContractViolation {A} message.

(** Modelled from the spec: the macro [BN_BASIC_ASSERT] of [bn_assert.h],
    which is not part of the sources read here.  A dereference of an
    empty handle "violates a basic contract (halts) if null": when the
    condition holds the function goes on, otherwise the program halts
    with the message. *)
Definition BN_BASIC_ASSERT {A : Type} (condition : bool) (message : string)
    (continue : checked A) : checked A :=
  if condition then continue else BasicContractViolation message.

(** Modelled from the spec: [bn::swap] of [bn_utility.h], which is not
    part of the sources read here, the "generic [swap]" that exchanges
    the values of two objects. *)
Definition bn_swap {A : Type} (x y : A) : A * A := (y, x).

Section unique_ptr_rest.
Context {Deleter : Type} `{!DeleterType Deleter}.

(** [operator*], const or not: the object at [_ptr], named by its
    address. *)
Definition operator_star (a : @unique_ptr Deleter) : checked pointer :=
  BN_BASIC_ASSERT (pointer_to_bool (_ptr a)) "Managed pointer is null"
    (Value (_ptr a)).

(** [operator->], const or not. *)
Definition operator_arrow (a : @unique_ptr Deleter) : checked pointer :=
  BN_BASIC_ASSERT (pointer_to_bool (_ptr a)) "Managed pointer is null"
    (Value (_ptr a)).

(** [unique_ptr()] and [unique_ptr(pointer ptr)] for the new object
    [this]. *)
Definition construct_default (this : handle) : M () :=
  begin_lifetime this (default_unique_ptr (Deleter := Deleter)).

Definition construct (this : handle) (ptr : pointer) : M () :=
  begin_lifetime this (make_from_pointer (Deleter := Deleter) ptr).

(** [make_unique]: [allocated] is the address that [new Type(args...)]
    yielded; the allocation itself is outside this header. *)
Definition make_unique (this : handle) (allocated : pointer) : M () :=
  construct this allocated.

(** [swap(unique_ptr& other)] *)
Definition swap (this other : handle) : M () :=
  u ← load (Deleter := Deleter) this;
  o ← load other;
  let p := bn_swap (_ptr u) (_ptr o) in
  write_ptr this p.1;;
  write_ptr other p.2;;
  u ← load this;
  o ← load other;
  let d := bn_swap (_deleter u) (_deleter o) in
  write_deleter this d.1;;
  write_deleter other d.2.

(** [friend void swap(unique_ptr& a, unique_ptr& b)] *)
Definition friend_swap (a b : handle) : M () := swap a b.

(** [hash<unique_ptr>::operator()]; [make_hash] is the hashing primitive
    of [bn_functional.h], which is outside this header. *)
Definition hash (make_hash : pointer → N) (value : @unique_ptr Deleter) : N :=
  make_hash (get value).

(** No two live handles hold the same non-null address. *)
Definition unique_owners (w : @world Deleter) : Prop :=
  ∀ (x y : handle) ux uy,
    x ≠ y →
    handles w !! x = Some ux → handles w !! y = Some uy →
    _ptr ux ≠ nullptr → _ptr ux ≠ _ptr uy.

(** The operations of the interface, as a caller issues them. *)
Inductive operation : Type :=
  | op_construct_default (this : handle)
  | op_construct (this : handle) (ptr : pointer)
  | op_move_construct (this other : handle)
  | op_move_assign (this other : handle)
  | op_destructor (this : handle)
  | op_release (this : handle)
  | op_reset (this : handle)
  | op_reset_to (this : handle) (ptr : pointer)
  | op_swap (this other : handle).

Definition run_operation (o : operation) : M () :=
  match o with
  | op_construct_default this => construct_default this
  | op_construct this ptr => construct this ptr
  | op_move_construct this other => move_construct this other
  | op_move_assign this other => move_assign this other
  | op_destructor this => destructor this
  | op_release this => release (Deleter := Deleter) this ≫= λ _, mret ()
  | op_reset this => reset this
  | op_reset_to this ptr => reset_to this ptr
  | op_swap this other => swap this other
  end.

(** What the caller owes when it hands a raw address to a handle: no
    other live handle holds it.  The other operations ask for nothing. *)
Definition hands_over_fresh (w : @world Deleter) (o : operation) : Prop :=
  match o with
  | op_construct this ptr | op_reset_to this ptr =>
      ptr = nullptr ∨
      ∀ (other : handle) u,
        other ≠ this → handles w !! other = Some u → _ptr u ≠ ptr
  | _ => True
  end.

(** A run of operations, each of them well used and none of them on a
    dead handle. *)
Inductive executes : @world Deleter → list operation → @world Deleter → Prop :=
  | executes_nil w : executes w [] w
  | executes_cons w o w1 os w2 :
      hands_over_fresh w o →
      run_operation o w = Some ((), w1) →
      executes w1 os w2 →
      executes w (o :: os) w2.

End unique_ptr_rest.

(** Two live handles with numbered deleters: handle 1 manages address 64
    with deleter 7, handle 2 manages address 96 with deleter 9.  Nothing
    has been disposed yet. *)
Definition two_handles : @world nat :=
  {| handles :=
       <[1%nat := {| _ptr := 64; _deleter := 7%nat |}]>
         (<[2%nat := {| _ptr := 96; _deleter := 9%nat |}]> ∅);
     disposals := [] |}.

(** The same, with handle 1 empty. *)
Definition one_empty_handle : @world nat :=
  {| handles :=
       <[1%nat := {| _ptr := nullptr; _deleter := 7%nat |}]>
         (<[2%nat := {| _ptr := 96; _deleter := 9%nat |}]> ∅);
     disposals := [] |}.

End UniquePtr.

(** ** Fixed sequence *)

Module Array.

Local Open Scope Z_scope.

(** How a call ends: it returns, or an assertion stops the program, or a
    built-in array is accessed outside its storage. *)
Inductive outcome (A : Type) : Type :=
  | Returned (a : A)
  | ContractViolation (message : string) (value : Z)
  | OutOfStorage.
Arguments Returned {A} a.
Arguments ContractViolation {A} message value.
Arguments OutOfStorage {A}.

(** Modelled from the spec: the macro [BTN_ASSERT] of [btn_assert.h],
    which is not part of the sources read here.  It is the
    "contract-assertion facility (signature: condition, human-readable
    message, halts on failure)": when the condition holds the function
    goes on, otherwise the program halts with the message. *)
Definition BTN_ASSERT {A : Type} (condition : bool) (message : string)
    (value : Z) (continue : outcome A) : outcome A :=
  if condition then continue else ContractViolation message value.

(** What the template parameter [Type] provides to the comparison
    operators: its own [==] and [<]. *)
Class ElementType (T : Type) := {
  elem_eq : T → T → bool;
  elem_lt : T → T → bool
}.

(** The two operators agree: elements are equal exactly when neither is
    less than the other. *)
Class ElementOrder (T : Type) `{!ElementType T} : Prop := {
  elem_eq_lt x y :
    elem_eq x y = true ↔ elem_lt x y = false ∧ elem_lt y x = false
}.

#[export] Instance int_element : ElementType Z := {
  elem_eq := Z.eqb;
  elem_lt := Z.ltb
}.

(** [template<typename Type, int Size> class array] with its one member
    [Type _data[Size]].  An [int] is an integer here: the header's only
    arithmetic is [++index] below [Size] and [Size - 1], which stay in
    the range of [int]. *)
Record array (T : Type) (Size : Z) := mk_array {
  _data : list T
}.
Arguments mk_array {T} Size _data.
Arguments _data {T Size} a.

(** A reference to an element ([Type&], [const Type&]): the position of
    the element in the storage it belongs to. *)
Definition reference : Type := nat.

(** An iterator ([Type*]) into [_data]: a position as well. *)
Definition iterator : Type := nat.

Section algorithms.
Context {T : Type} `{!ElementType T}.

(** The built-in [data[index]] *)
Definition element (data : list T) (index : Z) : outcome reference :=
  if (0 <=? index) && (index <? Z.of_nat (length data))
  then Returned (Z.to_nat index)
  else OutOfStorage.

(** The elements between two iterators. *)
Definition range (data : list T) (first last : iterator) : list T :=
  take (last - first)%nat (drop first data).

(** Assignment of [value] to [count] elements from [first] on. *)
Fixpoint fill_n (data : list T) (first : iterator) (count : nat)
    (value : T) : list T :=
  match count with
  | O => data
  | S count' => fill_n (<[first := value]> data) (S first) count' value
  end.

(** Modelled from the spec: [btn::fill] of [btn_algorithm.h], which is
    not part of the sources read here; [fill(value)] "assigns [value]
    to every element" of the range between the two iterators it is
    given. *)
Definition btn_fill (data : list T) (first last : iterator) (value : T)
    : list T :=
  fill_n data first (last - first) value.

(** Modelled from the spec: [equal] of [btn_algorithm.h], which is not
    part of the sources read here, one of the "ordering/equality
    comparison algorithms for ranges": the first range is equal to the
    range that starts at the third iterator when "all elements compare
    equal element-wise". *)
Fixpoint equal (range1 from2 : list T) : bool :=
  match range1, from2 with
  | [], _ => true
  | x :: range1', y :: from2' => elem_eq x y && equal range1' from2'
  | _ :: _, [] => false
  end.

(** Modelled from the spec: [lexicographical_compare] of
    [btn_algorithm.h], which is not part of the sources read here, the
    other of the "ordering/equality comparison algorithms for ranges":
    "lexicographic element-wise comparison", where the "ordering
    follows the first differing index" and a range that ends first is
    the smaller one. *)
Fixpoint lexicographical_compare (range1 range2 : list T) : bool :=
  match range1, range2 with
  | _, [] => false
  | [], _ :: _ => true
  | x :: range1', y :: range2' =>
      if elem_lt x y then true
      else if elem_lt y x then false
      else lexicographical_compare range1' range2'
  end.
End algorithms.

Section array.
Context {T : Type} `{!ElementType T} {Size : Z}.
Implicit Types a b : array T Size.

(** The storage holds [Size] elements, and [static_assert(Size > 0)]. *)
Definition well_formed a : Prop :=
  Z.of_nat (length (_data a)) = Size ∧ 0 < Size.

Definition size a : Z := Size.
Definition max_size a : Z := Size.
Definition available a : Z := 0.
Definition empty a : bool := false.
Definition full a : bool := true.

(** [&_data[0]] and [&_data[Size]] *)
Definition begin a : iterator := Z.to_nat 0.
Definition end_ a : iterator := Z.to_nat Size.

(** [operator[]] and [at], const or not: the four bodies are the
    same. *)
Definition subscript a (index : Z) : outcome reference :=
  BTN_ASSERT ((0 <=? index) && (index <? Size)) "Invalid index: " index
    (element (_data a) index).

Definition at_ a (index : Z) : outcome reference :=
  BTN_ASSERT ((0 <=? index) && (index <? Size)) "Invalid index: " index
    (element (_data a) index).

(** Reading and writing through a reference into [a]. *)
Definition read a (r : reference) : option T := _data a !! r.

Definition assign a (r : reference) (value : T) : array T Size :=
  mk_array Size (<[r := value]> (_data a)).

Definition fill a (value : T) : array T Size :=
  mk_array Size (btn_fill (_data a) (begin a) (end_ a) value).

(** The loop of [swap], for two distinct array objects; [todo] bounds
    the number of rounds, and [Size - index] rounds remain at [index]. *)
Fixpoint swap_loop (todo : nat) (index : Z) (data other_data : list T)
    : outcome (list T * list T) :=
  match todo with
  | O => Returned (data, other_data)
  | S todo' =>
      if index <? Size then
        match element data index, element other_data index with
        | Returned r, Returned r' =>
            match data !! r, other_data !! r' with
            | Some x, Some y =>
                swap_loop todo' (index + 1)
                  (<[r := y]> data) (<[r' := x]> other_data)
            | _, _ => OutOfStorage
            end
        | _, _ => OutOfStorage
        end
      else Returned (data, other_data)
  end.

Definition swap a b : outcome (array T Size * array T Size) :=
  match swap_loop (Z.to_nat Size) 0 (_data a) (_data b) with
  | Returned (data, other_data) =>
      Returned (mk_array Size data, mk_array Size other_data)
  | ContractViolation message value => ContractViolation message value
  | OutOfStorage => OutOfStorage
  end.

Definition operator_eq a b : bool :=
  if negb (size a =? size b) then false
  else equal (range (_data a) (begin a) (end_ a)) (drop (begin b) (_data b)).

Definition operator_ne a b : bool := negb (operator_eq a b).

Definition operator_lt a b : bool :=
  lexicographical_compare (range (_data a) (begin a) (end_ a))
    (range (_data b) (begin b) (end_ b)).

Definition operator_gt a b : bool := operator_lt b a.
Definition operator_le a b : bool := negb (operator_gt a b).
Definition operator_ge a b : bool := negb (operator_lt a b).

(** Every element of [a] equals, by the element type's [==], the
    element of [b] at the same index. *)
Definition elementwise_equal a b : Prop :=
  ∀ (i : nat) x y,
    _data a !! i = Some x → _data b !! i = Some y → elem_eq x y = true.

(** [i] is the first index at which [a] and [b] hold different
    elements, [x] in [a] and [y] in [b]. *)
Definition first_difference a b (i : nat) (x y : T) : Prop :=
  _data a !! i = Some x ∧ _data b !! i = Some y ∧
  elem_eq x y = false ∧
  ∀ (j : nat) x' y',
    (j < i)%nat → _data a !! j = Some x' → _data b !! j = Some y' →
    elem_eq x' y' = true.

(** One operation on a live array: what [fill], [swap] (on either
    side) and a write through [operator[]] or [at] make of it. *)
Inductive step : array T Size → array T Size → Prop :=
  | step_fill a value :
      step a (fill a value)
  | step_swap_this a b a' b' :
      well_formed b → swap a b = Returned (a', b') → step a a'
  | step_swap_other a b a' b' :
      well_formed b → swap b a = Returned (b', a') → step a a'
  | step_subscript a index r value :
      subscript a index = Returned r → step a (assign a r value)
  | step_at a index r value :
      at_ a index = Returned r → step a (assign a r value).
End array.

(** *** The rest of the header *)

Section array_rest.
Context {T : Type} {Size : Z}.
Implicit Types a b : array T Size.

(** [data()]: a pointer to the beginning of the storage. *)
Definition data a : iterator := Z.to_nat 0.

(** [cbegin()] returns [begin()], [cend()] is [&_data[Size]]. *)
Definition cbegin a : iterator := begin a.
Definition cend a : iterator := Z.to_nat Size.

(** [front()] and [back()], const or not: [_data[0]] and
    [_data[Size - 1]], with no assertion. *)
Definition front a : outcome reference := element (_data a) 0.
Definition back a : outcome reference := element (_data a) (Size - 1).

(** [friend void swap(array& a, array& b)] *)
Definition friend_swap a b : outcome (array T Size * array T Size) :=
  swap a b.

End array_rest.

(** [to_array] has no embedding: its body [return array(base_array);]
    names the class template without arguments, [array] has no
    constructor and no deduction guide from which [Size] could be
    deduced, and the member [_data] cannot be initialised from an array,
    so no instantiation of the function is well-formed and no call of it
    returns a value. *)

(** An element type like a floating-point type with a value that is not
    a number: [None] is neither equal to nor less than anything, itself
    included. *)
#[export] Instance unordered_element : ElementType (option Z) := {
  elem_eq x y :=
    match x, y with
    | Some m, Some n => m =? n
    | _, _ => false
    end;
  elem_lt x y :=
    match x, y with
    | Some m, Some n => m <? n
    | _, _ => false
    end
}.

(** Two arrays of that type which hold the unordered value at index 0
    and differ in the numbers at index 1. *)
Definition unordered_first : array (option Z) 2 := mk_array 2 [None; Some 1].
Definition unordered_first' : array (option Z) 2 := mk_array 2 [None; Some 2].

(** Two arrays of four integers that differ first at index 2. *)
Definition sample : array Z 4 := mk_array 4 [10; 20; 30; 40].
Definition sample' : array Z 4 := mk_array 4 [10; 20; 35; 0].

(** A third one, greater than both. *)
Definition sample_last : array Z 4 := mk_array 4 [10; 20; 35; 1].

End Array.

(** ** Properties of the owning handle *)

Module UniquePtrFacts.
Import UniquePtr.

Section facts.
Context {Deleter : Type} `{!DeleterType Deleter}.
Implicit Types (w : @world Deleter) (u : @unique_ptr Deleter).

(** Unfolding of the monad, one layer at a time. *)
Lemma bind_run {A B} (m : M A) (f : A → M B) w a w' :
  m w = Some (a, w') → (m ≫= f) w = f a w'.
Proof. intros E. unfold mbind, M_bind. by rewrite E. Qed.

Lemma load_run w this u :
  handles w !! this = Some u → load this w = Some (u, w).
Proof. intros E. unfold load. by rewrite E. Qed.

Lemma store_run w this u v :
  handles w !! this = Some u →
  store this v w =
    Some ((), {| handles := <[this := v]> (handles w); disposals := disposals w |}).
Proof. intros E. unfold store. by rewrite E. Qed.

Lemma read_ptr_run w this u :
  handles w !! this = Some u → read_ptr this w = Some (_ptr u, w).
Proof.
  intros E. unfold read_ptr. by rewrite (bind_run _ _ _ _ _ (load_run _ _ _ E)).
Qed.

Lemma write_ptr_run w this u p :
  handles w !! this = Some u →
  write_ptr this p w =
    Some ((), {| handles := <[this := {| _ptr := p; _deleter := _deleter u |}]> (handles w);
                 disposals := disposals w |}).
Proof.
  intros E. unfold write_ptr.
  rewrite (bind_run _ _ _ _ _ (load_run _ _ _ E)). by apply store_run with u.
Qed.

Lemma write_deleter_run w this u d :
  handles w !! this = Some u →
  write_deleter this d w =
    Some ((), {| handles := <[this := {| _ptr := _ptr u; _deleter := d |}]> (handles w);
                 disposals := disposals w |}).
Proof.
  intros E. unfold write_deleter.
  rewrite (bind_run _ _ _ _ _ (load_run _ _ _ E)). by apply store_run with u.
Qed.

Lemma call_deleter_run w this u p :
  handles w !! this = Some u →
  call_deleter this p w =
    Some ((), {| handles := handles w;
                 disposals := disposals w ++ [(_deleter u, p)] |}).
Proof.
  intros E. unfold call_deleter.
  by rewrite (bind_run _ _ _ _ _ (load_run _ _ _ E)).
Qed.

(** The members, run on a live handle. *)
Lemma release_run w this u :
  handles w !! this = Some u →
  release this w =
    Some (_ptr u,
          {| handles := <[this := {| _ptr := nullptr; _deleter := _deleter u |}]> (handles w);
             disposals := disposals w |}).
Proof.
  intros E. unfold release.
  rewrite (bind_run _ _ _ _ _ (read_ptr_run _ _ _ E)).
  by rewrite (bind_run _ _ _ _ _ (write_ptr_run _ _ _ nullptr E)).
Qed.

Lemma reset_run w this u :
  handles w !! this = Some u →
  reset this w =
    Some ((),
          {| handles := <[this := {| _ptr := nullptr; _deleter := _deleter u |}]> (handles w);
             disposals := disposals w ++ [(_deleter u, _ptr u)] |}).
Proof.
  intros E. unfold reset.
  rewrite (bind_run _ _ _ _ _ (read_ptr_run _ _ _ E)).
  rewrite (bind_run _ _ _ _ _ (call_deleter_run _ _ _ (_ptr u) E)).
  by rewrite (write_ptr_run _ _ u).
Qed.

Lemma reset_to_run w this u ptr :
  handles w !! this = Some u →
  reset_to this ptr w =
    Some ((),
          if decide (ptr = _ptr u) then w
          else {| handles := <[this := {| _ptr := ptr; _deleter := _deleter u |}]> (handles w);
                  disposals := disposals w ++ [(_deleter u, _ptr u)] |}).
Proof.
  intros E. unfold reset_to.
  rewrite (bind_run _ _ _ _ _ (read_ptr_run _ _ _ E)).
  destruct (decide (ptr = _ptr u)) as [->|Hne].
  - by rewrite N.eqb_refl.
  - apply N.eqb_neq in Hne as ->. cbn [negb].
    rewrite (bind_run _ _ _ _ _ (reset_run _ _ _ E)).
    erewrite write_ptr_run by (cbn; apply lookup_insert_eq).
    cbn. by rewrite insert_insert_eq.
Qed.

Lemma destructor_run w this u :
  handles w !! this = Some u →
  destructor this w =
    Some ((),
          {| handles := delete this (handles w);
             disposals := disposals w ++ [(_deleter u, _ptr u)] |}).
Proof.
  intros E. unfold destructor.
  rewrite (bind_run _ _ _ _ _ (reset_run _ _ _ E)).
  unfold end_lifetime. cbn. rewrite lookup_insert_eq.
  by rewrite delete_insert_eq.
Qed.

Lemma assign_deleter_run w this other u o :
  this ≠ other →
  handles w !! this = Some u → handles w !! other = Some o →
  assign_deleter this other w =
    Some ((),
          {| handles :=
               <[other := {| _ptr := _ptr o;
                             _deleter := (deleter_move_assign (_deleter u) (_deleter o)).2 |}]>
                 (<[this := {| _ptr := _ptr u;
                               _deleter := (deleter_move_assign (_deleter u) (_deleter o)).1 |}]>
                    (handles w));
             disposals := disposals w |}).
Proof.
  intros Hne Eu Eo. unfold assign_deleter. rewrite decide_False by done.
  rewrite (bind_run _ _ _ _ _ (load_run _ _ _ Eu)).
  rewrite (bind_run _ _ _ _ _ (load_run _ _ _ Eo)). cbn zeta.
  rewrite (bind_run _ _ _ _ _ (write_deleter_run _ _ _ _ Eu)).
  erewrite write_deleter_run; [done|].
  cbn. by rewrite lookup_insert_ne.
Qed.

Lemma assign_deleter_self_run w this u :
  handles w !! this = Some u →
  assign_deleter this this w =
    Some ((),
          {| handles :=
               <[this := {| _ptr := _ptr u;
                            _deleter := deleter_self_move_assign (_deleter u) |}]>
                 (handles w);
             disposals := disposals w |}).
Proof.
  intros Eu. unfold assign_deleter. rewrite decide_True by done.
  rewrite (bind_run _ _ _ _ _ (load_run _ _ _ Eu)).
  by apply write_deleter_run.
Qed.

Lemma calls_on_app p (log1 log2 : list (@disposal Deleter)) :
  calls_on p (log1 ++ log2) = (calls_on p log1 + calls_on p log2)%nat.
Proof. unfold calls_on. by rewrite filter_app, length_app. Qed.

Lemma calls_on_one p (d : Deleter) q :
  calls_on p [(d, q)] = if decide (q = p) then 1%nat else 0%nat.
Proof.
  unfold calls_on. rewrite filter_cons, filter_nil. cbn.
  by destruct (decide (q = p)).
Qed.

(** C2: [release()] on a handle managing [p] returns [p], leaves the
    handle empty and calls no deleter; the destructor that runs
    afterwards applies the deleter to the null address only, so [p] is
    not disposed. *)
Theorem release_hands_over w this u :
  handles w !! this = Some u →
  ∃ w1 u1,
    release this w = Some (_ptr u, w1) ∧
    handles w1 !! this = Some u1 ∧
    operator_bool u1 = false ∧ get u1 = nullptr ∧
    disposals w1 = disposals w ∧
    ∃ w2,
      destructor this w1 = Some ((), w2) ∧
      disposals w2 = disposals w ++ [(_deleter u, nullptr)] ∧
      (_ptr u ≠ nullptr →
       calls_on (_ptr u) (disposals w2) = calls_on (_ptr u) (disposals w)).
Proof.
  intros E. eexists _, _. split; [by apply release_run|].
  cbn. split; [apply lookup_insert_eq|]. do 3 (split; [done|]).
  eexists. split.
  { apply destructor_run. cbn. apply lookup_insert_eq. }
  cbn [disposals]. split; [done|]. intros Hp.
  rewrite calls_on_app, calls_on_one. rewrite decide_False by done. lia.
Qed.

(** C3: [reset(q)] with [q] different from the current address applies
    the deleter to the current address and binds the handle to [q];
    with [q] equal to the current address nothing happens, so
    [H.reset(H.get())] calls no deleter and leaves [H] as it was. *)
Theorem reset_to_rebinds_or_skips w this u q :
  handles w !! this = Some u →
  ∃ w1,
    reset_to this q w = Some ((), w1) ∧
    (q ≠ _ptr u →
     disposals w1 = disposals w ++ [(_deleter u, _ptr u)] ∧
     handles w1 !! this = Some {| _ptr := q; _deleter := _deleter u |} ∧
     ∀ other, other ≠ this → handles w1 !! other = handles w !! other) ∧
    (q = _ptr u → w1 = w) ∧
    reset_to this (get u) w = Some ((), w).
Proof.
  intros E. eexists. split; [by apply reset_to_run|].
  split; [|split].
  - intros Hne. rewrite decide_False by done. cbn.
    split; [done|]. split; [apply lookup_insert_eq|].
    intros other Ho. by rewrite lookup_insert_ne.
  - intros ->. by rewrite decide_True.
  - rewrite (reset_to_run _ _ _ _ E). unfold get. by rewrite decide_True.
Qed.

(** C4: [reset()] applies the deleter to the current address, null or
    not, and makes the handle empty; on an empty handle the deleter
    receives null and the handle stays as it is, so a second [reset()]
    changes no handle. *)
Theorem reset_disposes_and_empties w this u :
  handles w !! this = Some u →
  ∃ w1,
    reset this w = Some ((), w1) ∧
    disposals w1 = disposals w ++ [(_deleter u, _ptr u)] ∧
    handles w1 = <[this := {| _ptr := nullptr; _deleter := _deleter u |}]> (handles w) ∧
    (operator_bool u = false →
     handles w1 = handles w ∧
     disposals w1 = disposals w ++ [(_deleter u, nullptr)]) ∧
    ∃ w2,
      reset this w1 = Some ((), w2) ∧
      handles w2 = handles w1 ∧
      disposals w2 = disposals w1 ++ [(_deleter u, nullptr)].
Proof.
  intros E. eexists. split; [by apply reset_run|]. cbn.
  do 2 (split; [done|]). split.
  - unfold operator_bool. intros Hb%negb_false_iff%N.eqb_eq.
    rewrite Hb. split; [|done].
    apply insert_id. rewrite E. f_equal. destruct u; cbn in *; by subst.
  - eexists. split.
    { apply reset_run. cbn. apply lookup_insert_eq. }
    cbn. split; [|done]. by rewrite insert_insert_eq.
Qed.

(** C5: the comparisons of a handle with the null marker, in terms of
    its conversion to [bool]. *)
Theorem nullptr_comparisons u :
  eq_nullptr u = negb (operator_bool u) ∧
  ne_nullptr u = operator_bool u ∧
  lt_nullptr u = false ∧
  gt_nullptr u = operator_bool u ∧
  le_nullptr u = negb (operator_bool u) ∧
  ge_nullptr u = true.
Proof.
  unfold eq_nullptr, ne_nullptr, lt_nullptr, gt_nullptr, le_nullptr,
    ge_nullptr, operator_bool, nullptr.
  by destruct (_ptr u).
Qed.

Lemma move_assign_run w a b ua ub :
  a ≠ b →
  handles w !! a = Some ua →
  handles w !! b = Some ub →
  move_assign b a w =
    Some ((),
          {| handles :=
               <[a := {| _ptr := nullptr;
                         _deleter := (deleter_move_assign (_deleter ub) (_deleter ua)).2 |}]>
                 (<[b := {| _ptr := _ptr ua;
                            _deleter := (deleter_move_assign (_deleter ub) (_deleter ua)).1 |}]>
                    (handles w));
             disposals :=
               disposals w ++
                 (if decide (_ptr ub = _ptr ua) then [] else [(_deleter ub, _ptr ub)]) |}).
Proof.
  intros Hab Ea Eb. unfold move_assign.
  rewrite (bind_run _ _ _ _ _ (release_run _ _ _ Ea)).
  erewrite bind_run;
    [|apply (reset_to_run _ _ ub); cbn; by rewrite lookup_insert_ne].
  destruct (decide (_ptr ua = _ptr ub)) as [Hp|Hp].
  - rewrite decide_True by done.
    erewrite (assign_deleter_run _ b a ub); cbn [handles disposals];
      [|done|by rewrite lookup_insert_ne|apply lookup_insert_eq].
    cbn [_ptr _deleter]. rewrite app_nil_r, <- Hp. do 3 f_equal.
    rewrite (insert_insert_ne _ b a) by done. by rewrite insert_insert_eq.
  - rewrite decide_False by done.
    erewrite (assign_deleter_run _ b a); cbn [handles disposals];
      [|done|apply lookup_insert_eq
       |rewrite lookup_insert_ne by done; apply lookup_insert_eq].
    cbn [_ptr _deleter]. do 3 f_equal.
    rewrite insert_insert_eq, (insert_insert_ne _ b a) by done.
    by rewrite insert_insert_eq.
Qed.

Lemma move_construct_run w a c ua :
  handles w !! a = Some ua →
  handles w !! c = None →
  move_construct c a w =
    Some ((),
          {| handles :=
               <[c := {| _ptr := _ptr ua;
                         _deleter := (deleter_move_construct (_deleter ua)).1 |}]>
                 (<[a := {| _ptr := nullptr;
                            _deleter := (deleter_move_construct (_deleter ua)).2 |}]>
                    (handles w));
             disposals := disposals w |}).
Proof.
  intros Ea Ec.
  assert (Hca : c ≠ a) by (intros ->; congruence).
  unfold move_construct.
  rewrite (bind_run _ _ _ _ _ (release_run _ _ _ Ea)).
  erewrite bind_run; [|apply load_run; cbn; apply lookup_insert_eq].
  cbn zeta. cbn [_deleter].
  erewrite bind_run; [|apply write_deleter_run; cbn; apply lookup_insert_eq].
  unfold begin_lifetime. cbn [handles disposals _ptr].
  by rewrite insert_insert_eq, lookup_insert_ne, Ec by done.
Qed.

(** The end of two handles, one after the other. *)
Lemma destructor_twice_run w x y ux uy :
  x ≠ y →
  handles w !! x = Some ux →
  handles w !! y = Some uy →
  (destructor x ≫= λ _, destructor y) w =
    Some ((),
          {| handles := delete y (delete x (handles w));
             disposals :=
               disposals w ++ [(_deleter ux, _ptr ux); (_deleter uy, _ptr uy)] |}).
Proof.
  intros Hxy Ex Ey.
  rewrite (bind_run _ _ _ _ _ (destructor_run _ _ _ Ex)).
  erewrite destructor_run; [|cbn; by rewrite lookup_delete_ne].
  cbn [handles disposals]. by rewrite <- (assoc_L (++)).
Qed.

Lemma bind_assoc {A B C} (m : M A) (f : A → M B) (g : B → M C) w :
  (m ≫= λ a, f a ≫= g) w = ((m ≫= f) ≫= g) w.
Proof.
  unfold mbind, M_bind. destruct (m w) as [[a w']|]; [|done].
  by destruct (f a w') as [[b w'']|].
Qed.


(** C10: self move assignment [H = move(H)] of a handle that manages a
    non-null [p] leaves [H] managing [p]; the one deleter call it makes
    is on the null address, and the destructor that runs later applies
    the deleter to [p], once. *)
Theorem self_move_assign_keeps_object w this u :
  handles w !! this = Some u →
  _ptr u ≠ nullptr →
  ∃ w1 u1,
    move_assign this this w = Some ((), w1) ∧
    handles w1 !! this = Some u1 ∧
    get u1 = _ptr u ∧ operator_bool u1 = true ∧
    _deleter u1 = deleter_self_move_assign (_deleter u) ∧
    disposals w1 = disposals w ++ [(_deleter u, nullptr)] ∧
    calls_on (_ptr u) (disposals w1) = calls_on (_ptr u) (disposals w) ∧
    (∀ other, other ≠ this → handles w1 !! other = handles w !! other) ∧
    ∃ w2,
      destructor this w1 = Some ((), w2) ∧
      disposals w2 = disposals w1 ++ [(_deleter u1, _ptr u)] ∧
      calls_on (_ptr u) (disposals w2) = S (calls_on (_ptr u) (disposals w)) ∧
      handles w2 !! this = None.
Proof.
  intros E Hp.
  set (w' := {| handles := <[this := {| _ptr := nullptr; _deleter := _deleter u |}]> (handles w);
                disposals := disposals w |}).
  assert (E' : handles w' !! this = Some {| _ptr := nullptr; _deleter := _deleter u |})
    by (cbn; apply lookup_insert_eq).
  pose proof (reset_to_run w' this _ (_ptr u) E') as Hreset.
  cbn [_ptr _deleter] in Hreset. rewrite decide_False in Hreset by done.
  unfold move_assign.
  rewrite (bind_run _ _ _ _ _ (release_run _ _ _ E)). fold w'.
  rewrite (bind_run _ _ _ _ _ Hreset).
  erewrite assign_deleter_self_run; [|cbn; apply lookup_insert_eq].
  subst w'. cbn [handles disposals _ptr _deleter].
  eexists _, _. split; [done|]. cbn [handles disposals].
  split; [apply lookup_insert_eq|]. split; [done|].
  split; [unfold operator_bool; cbn; by apply negb_true_iff, N.eqb_neq|].
  split; [done|]. split; [done|].
  split; [rewrite calls_on_app, calls_on_one; case_decide; [congruence|lia]|].
  split; [intros other Ho; by rewrite !lookup_insert_ne by done|].
  eexists. split; [apply destructor_run; cbn; apply lookup_insert_eq|].
  cbn [handles disposals _ptr _deleter]. split; [done|].
  split; [|apply lookup_delete_eq].
  rewrite !calls_on_app, !calls_on_one. repeat case_decide; (congruence || lia).
Qed.

End facts.

(** The members run on concrete handles. *)
Example move_assign_two_handles :
  move_assign 2%nat 1%nat two_handles =
    Some ((), {| handles :=
                   <[1%nat := {| _ptr := nullptr; _deleter := 7%nat |}]>
                     (<[2%nat := {| _ptr := 64; _deleter := 7%nat |}]> ∅);
                 disposals := [(9%nat, 96)] |}).
Proof. vm_compute. reflexivity. Qed.

Example self_move_assign_handle_1 :
  move_assign 1%nat 1%nat two_handles =
    Some ((), {| handles := handles two_handles;
                 disposals := [(7%nat, nullptr)] |}).
Proof. vm_compute. reflexivity. Qed.

Example dead_handle_is_not_used :
  release 5%nat two_handles = None.
Proof. reflexivity. Qed.


Lemma release_hands_over_witness :
  ∃ w1 w2,
    release 1%nat two_handles = Some (64, w1) ∧
    disposals w1 = [] ∧
    destructor 1%nat w1 = Some ((), w2) ∧
    disposals w2 = [(7%nat, nullptr)].
Proof.
  destruct (release_hands_over two_handles 1%nat {| _ptr := 64; _deleter := 7%nat |})
    as (w1 & u1 & Hrun & _ & _ & _ & Hlog & w2 & Hrun2 & Hlog2 & _);
    [reflexivity|].
  exists w1, w2. repeat split; assumption.
Defined.

Lemma reset_to_rebinds_or_skips_witness :
  (∃ w1,
     reset_to 1%nat 128 two_handles = Some ((), w1) ∧
     disposals w1 = [(7%nat, 64)] ∧
     handles w1 !! 1%nat = Some {| _ptr := 128; _deleter := 7%nat |}) ∧
  reset_to 1%nat 64 two_handles = Some ((), two_handles).
Proof.
  split.
  - destruct (reset_to_rebinds_or_skips two_handles 1%nat
                {| _ptr := 64; _deleter := 7%nat |} 128)
      as (w1 & Hrun & Hne & _); [reflexivity|].
    destruct Hne as (Hlog & Hthis & _); [cbn; lia|].
    exists w1. repeat split; assumption.
  - destruct (reset_to_rebinds_or_skips two_handles 1%nat
                {| _ptr := 64; _deleter := 7%nat |} 64)
      as (w1 & _ & _ & _ & Hself); [reflexivity|].
    exact Hself.
Defined.

Lemma reset_disposes_and_empties_witness :
  (∃ w1,
     reset 1%nat two_handles = Some ((), w1) ∧
     disposals w1 = [(7%nat, 64)] ∧
     handles w1 = handles one_empty_handle) ∧
  (∃ w1,
     reset 1%nat one_empty_handle = Some ((), w1) ∧
     disposals w1 = [(7%nat, nullptr)] ∧
     handles w1 = handles one_empty_handle).
Proof.
  split.
  - destruct (reset_disposes_and_empties two_handles 1%nat
                {| _ptr := 64; _deleter := 7%nat |})
      as (w1 & Hrun & Hlog & Hmap & _); [reflexivity|].
    exists w1. split; [assumption|]. split; [assumption|].
    rewrite Hmap. vm_compute. reflexivity.
  - destruct (reset_disposes_and_empties one_empty_handle 1%nat
                {| _ptr := nullptr; _deleter := 7%nat |})
      as (w1 & Hrun & _ & _ & Hempty & _); [reflexivity|].
    destruct Hempty as [Hmap Hlog]; [reflexivity|].
    exists w1. repeat split; assumption.
Defined.

Lemma self_move_assign_keeps_object_witness :
  ∃ w1 w2,
    move_assign 1%nat 1%nat two_handles = Some ((), w1) ∧
    handles w1 !! 1%nat = Some {| _ptr := 64; _deleter := 7%nat |} ∧
    disposals w1 = [(7%nat, nullptr)] ∧
    destructor 1%nat w1 = Some ((), w2) ∧
    disposals w2 = [(7%nat, nullptr); (7%nat, 64)].
Proof.
  destruct (self_move_assign_keeps_object two_handles 1%nat
              {| _ptr := 64; _deleter := 7%nat |})
    as (w1 & u1 & Hrun & Hthis & Hget & _ & Hdel & Hlog & _ & _ & w2 & Hrun2 & Hlog2 & _);
    [reflexivity | cbn; unfold nullptr; lia |].
  exists w1, w2. destruct u1 as [p1 d1]. cbn in Hget, Hdel. subst p1 d1.
  rewrite Hlog in Hlog2. repeat split; assumption.
Defined.

End UniquePtrFacts.

(** ** Properties of the fixed sequence *)

Module ArrayFacts.
Import Array.

Local Open Scope Z_scope.

Section ranges.
Context {T : Type} `{!ElementType T}.
Implicit Types l : list T.

Lemma range_all l (n : nat) : length l = n → range l 0%nat n = l.
Proof.
  intros <-. unfold range. rewrite drop_0, Nat.sub_0_r. by rewrite firstn_all.
Qed.

Lemma fill_n_length l first count value :
  length (fill_n l first count value) = length l.
Proof.
  revert l first. induction count as [|count IH]; intros l first; cbn; [done|].
  by rewrite IH, length_insert.
Qed.

Lemma fill_n_lookup l first count value (i : nat) :
  (first + count ≤ length l)%nat →
  fill_n l first count value !! i =
    if decide (first ≤ i < first + count)%nat then Some value else l !! i.
Proof.
  revert l first. induction count as [|count IH]; intros l first Hlen; cbn.
  - rewrite decide_False by lia. done.
  - rewrite IH by (rewrite length_insert; lia).
    destruct (decide (i = first)) as [->|Hne].
    + rewrite decide_False, decide_True by lia.
      apply list_lookup_insert_eq. lia.
    + rewrite list_lookup_insert_ne by done.
      repeat case_decide; (done || lia).
Qed.

Lemma btn_fill_length l first last value :
  length (btn_fill l first last value) = length l.
Proof. apply fill_n_length. Qed.

Lemma insert_middle l1 l2 x y :
  <[length l1 := y]> (l1 ++ x :: l2) = l1 ++ y :: l2.
Proof. by rewrite insert_app_r_alt, Nat.sub_diag by lia. Qed.

Lemma element_in_storage l (index : Z) :
  0 ≤ index < Z.of_nat (length l) →
  element l index = Returned (Z.to_nat index).
Proof.
  intros [H0 H1]. unfold element.
  apply Z.leb_le in H0 as ->. by apply Z.ltb_lt in H1 as ->.
Qed.

Lemma equal_true_iff l1 l2 :
  length l1 = length l2 →
  equal l1 l2 = true ↔
  ∀ (i : nat) x y, l1 !! i = Some x → l2 !! i = Some y → elem_eq x y = true.
Proof.
  revert l2. induction l1 as [|x l1 IH]; intros [|y l2] Hlen; try done.
  cbn [equal]. rewrite andb_true_iff, IH by (cbn in Hlen; lia). split.
  - intros [Hxy Hrest] [|i] x' y'; cbn; [congruence|apply Hrest].
  - intros Hall. split; [by apply (Hall 0%nat)|].
    intros i. apply (Hall (S i)).
Qed.

Lemma equal_false_first l1 l2 :
  length l1 = length l2 →
  equal l1 l2 = false →
  ∃ (i : nat) x y,
    l1 !! i = Some x ∧ l2 !! i = Some y ∧ elem_eq x y = false ∧
    ∀ (j : nat) x' y',
      (j < i)%nat → l1 !! j = Some x' → l2 !! j = Some y' →
      elem_eq x' y' = true.
Proof.
  revert l2. induction l1 as [|x l1 IH]; intros [|y l2] Hlen; try done.
  cbn [equal]. destruct (elem_eq x y) eqn:Hxy; cbn [andb].
  - intros Hrest. destruct (IH l2) as (i & x' & y' & H1 & H2 & Hne & Hbefore);
      [cbn in Hlen; lia|done|].
    exists (S i), x', y'. repeat split; try done.
    intros [|j] x'' y'' Hj; cbn; [congruence|].
    apply Hbefore. lia.
  - intros _. exists 0%nat, x, y. repeat split; try done. lia.
Qed.

Context `{!ElementOrder T}.

Lemma elem_eq_sym (x y : T) : elem_eq x y = elem_eq y x.
Proof.
  apply eq_true_iff_eq. rewrite !elem_eq_lt. tauto.
Qed.

Lemma lexicographical_compare_equal l1 l2 :
  length l1 = length l2 →
  equal l1 l2 = true →
  lexicographical_compare l1 l2 = false.
Proof.
  revert l2. induction l1 as [|x l1 IH]; intros [|y l2] Hlen; try done.
  cbn [equal lexicographical_compare].
  intros [Hxy Hrest]%andb_true_iff.
  apply elem_eq_lt in Hxy as [-> ->]. apply IH; [cbn in Hlen; lia|done].
Qed.

Lemma lexicographical_compare_first l1 l2 (i : nat) x y :
  l1 !! i = Some x → l2 !! i = Some y →
  elem_eq x y = false →
  (∀ (j : nat) x' y',
     (j < i)%nat → l1 !! j = Some x' → l2 !! j = Some y' →
     elem_eq x' y' = true) →
  lexicographical_compare l1 l2 = elem_lt x y.
Proof.
  revert l1 l2. induction i as [|i IH]; intros [|x1 l1] [|y1 l2]; try done.
  - cbn. intros [= ->] [= ->] Hne _.
    destruct (elem_lt x y) eqn:Hlt; [done|].
    destruct (elem_lt y x) eqn:Hgt; [done|].
    assert (elem_eq x y = true) by (by apply elem_eq_lt). congruence.
  - cbn [lookup list_lookup lexicographical_compare].
    intros H1 H2 Hne Hbefore.
    assert (elem_eq x1 y1 = true) as [-> ->]%elem_eq_lt
      by (apply (Hbefore 0%nat); [lia|done..]).
    apply IH; try done.
    intros j x' y' Hj. apply (Hbefore (S j)). lia.
Qed.
End ranges.

Section facts.
Context {T : Type} `{!ElementType T} {Size : Z}.
Implicit Types a b : array T Size.

Lemma well_formed_length a :
  well_formed a → length (_data a) = Z.to_nat Size.
Proof. intros [Hlen _]. lia. Qed.

Lemma range_whole a :
  well_formed a → range (_data a) (begin a) (end_ a) = _data a.
Proof. intros Ha. apply range_all. by apply well_formed_length. Qed.

Lemma swap_loop_exchanges (s1 s2 pre1 pre2 : list T) :
  length s1 = length s2 →
  length pre1 = length pre2 →
  Size = Z.of_nat (length pre1 + length s1) →
  swap_loop (Size := Size) (length s1) (Z.of_nat (length pre1))
    (pre2 ++ s1) (pre1 ++ s2)
  = Returned (pre2 ++ s2, pre1 ++ s1).
Proof.
  revert s2 pre1 pre2.
  induction s1 as [|x s1 IH]; intros [|y s2] pre1 pre2 Hs Hpre HSize; try done.
  cbn [length swap_loop] in *.
  assert ((Z.of_nat (length pre1) <? Size) = true) as -> by (apply Z.ltb_lt; lia).
  rewrite !element_in_storage by (rewrite length_app; cbn; lia).
  rewrite Nat2Z.id.
  rewrite Hpre at 1. rewrite !list_lookup_middle by done.
  rewrite (insert_middle pre1), Hpre, (insert_middle pre2), <- Hpre.
  rewrite (cons_middle y pre2 s1), (cons_middle x pre1 s2), !(assoc_L (++)).
  replace (Z.of_nat (length pre1) + 1) with (Z.of_nat (length (pre1 ++ [x])))
    by (rewrite length_app; cbn; lia).
  rewrite IH; [|lia|rewrite !length_app; cbn; lia|rewrite length_app; cbn; lia].
  by rewrite <- !(assoc_L (++)).
Qed.

(** [swap] always returns for well-formed arrays, and exchanges the
    contents. *)
Lemma swap_exchanges a b :
  well_formed a → well_formed b → swap a b = Returned (b, a).
Proof.
  intros Ha Hb. unfold swap.
  pose proof (swap_loop_exchanges (_data a) (_data b) [] []) as Hloop.
  cbn [length app Nat.add] in Hloop. change (Z.of_nat 0) with 0 in Hloop.
  rewrite <- (well_formed_length a Ha).
  rewrite Hloop; [by destruct a, b| |done|].
  - rewrite (well_formed_length a Ha). by rewrite (well_formed_length b Hb).
  - destruct Ha as [Ha _]. lia.
Qed.

Lemma fill_well_formed a value : well_formed a → well_formed (fill a value).
Proof.
  intros [Hlen Hpos]. split; [|done]. unfold fill. cbn [_data].
  by rewrite btn_fill_length.
Qed.

(** After [fill(value)] every element is [value]. *)
Lemma fill_every_element a value (i : nat) :
  well_formed a → Z.of_nat i < Size → read (fill a value) i = Some value.
Proof.
  intros Ha Hi. pose proof (well_formed_length a Ha) as Hlen.
  unfold read, fill, btn_fill, begin, end_. cbn [_data].
  rewrite fill_n_lookup by (cbn; lia).
  rewrite decide_True; [done|]. cbn. lia.
Qed.

Lemma assign_well_formed a r value :
  well_formed a → well_formed (assign a r value).
Proof.
  intros [Hlen Hpos]. split; [|done]. unfold assign. cbn [_data].
  by rewrite length_insert.
Qed.

Lemma step_well_formed a a' : step a a' → well_formed a → well_formed a'.
Proof.
  intros Hstep Ha. destruct Hstep as [a v|a b a' b' Hb Hs|a b a' b' Hb Hs|a i r v _|a i r v _].
  - by apply fill_well_formed.
  - rewrite swap_exchanges in Hs by done. by injection Hs as <- <-.
  - rewrite swap_exchanges in Hs by done. by injection Hs as <- <-.
  - by apply assign_well_formed.
  - by apply assign_well_formed.
Qed.

(** The guard of [operator[]] and [at], outside and inside the range. *)
Lemma guard_rejects a (index : Z) :
  index < 0 ∨ Size ≤ index →
  at_ a index = ContractViolation "Invalid index: " index ∧
  subscript a index = ContractViolation "Invalid index: " index.
Proof.
  intros Hout. unfold at_, subscript, BTN_ASSERT.
  assert ((0 <=? index) && (index <? Size) = false) as ->; [|done].
  apply andb_false_iff. rewrite Z.leb_gt, Z.ltb_ge. lia.
Qed.

Lemma guard_accepts a (index : Z) :
  well_formed a →
  0 ≤ index < Size →
  ∃ x,
    at_ a index = Returned (Z.to_nat index) ∧
    subscript a index = Returned (Z.to_nat index) ∧
    read a (Z.to_nat index) = Some x.
Proof.
  intros [Hlen Hpos] Hin. unfold at_, subscript, BTN_ASSERT.
  assert ((0 <=? index) && (index <? Size) = true) as ->.
  { apply andb_true_iff. rewrite Z.leb_le, Z.ltb_lt. lia. }
  rewrite element_in_storage by lia.
  destruct (lookup_lt_is_Some_2 (_data a) (Z.to_nat index)) as [x Hx]; [lia|].
  by exists x.
Qed.

(** C6: for an index outside [0, Size), negative ones and [Size]
    itself included, [at] and [operator[]] both end in the contract
    violation; for an index inside they return the reference to the
    element at that index. *)
Theorem index_is_checked a (index : Z) :
  well_formed a →
  (index < 0 ∨ Size ≤ index →
   at_ a index = ContractViolation "Invalid index: " index ∧
   subscript a index = ContractViolation "Invalid index: " index) ∧
  (0 ≤ index < Size →
   ∃ x,
     at_ a index = Returned (Z.to_nat index) ∧
     subscript a index = Returned (Z.to_nat index) ∧
     read a (Z.to_nat index) = Some x).
Proof.
  intros Ha. split.
  - apply guard_rejects.
  - by apply guard_accepts.
Qed.

(** C7: whatever [fill], [swap] and element writes were applied to an
    array of [Size > 0] elements, [size()] and [max_size()] are [Size],
    [available()] is 0, [empty()] is false and [full()] is true, and
    the storage still holds [Size] elements. *)
Theorem occupancy_is_fixed a0 a :
  well_formed a0 →
  rtc step a0 a →
  size a = Size ∧ max_size a = Size ∧ size a = max_size a ∧
  available a = 0 ∧ empty a = false ∧ full a = true ∧
  Z.of_nat (length (_data a)) = size a ∧ 0 < size a.
Proof.
  intros Ha0 Hreach.
  assert (well_formed a) as [Hlen Hpos].
  { induction Hreach as [a|a a1 a2 Hstep _ IH]; [done|].
    apply IH. by apply (step_well_formed a). }
  by repeat split.
Qed.


End facts.

(** The integers, with their own [==] and [<], are an ordered element
    type. *)
#[export] Instance int_element_order : ElementOrder Z.
Proof.
  constructor. intros x y. cbn.
  rewrite Z.eqb_eq, !Z.ltb_ge. lia.
Qed.

(** The operations run on concrete arrays. *)
Example fill_sample : fill sample 7 = mk_array 4 [7; 7; 7; 7].
Proof. reflexivity. Qed.

Example swap_filled :
  swap (fill sample 7) (fill sample' 3)
  = Returned (mk_array 4 [3; 3; 3; 3], mk_array 4 [7; 7; 7; 7]).
Proof. reflexivity. Qed.

Example sample_less_than_sample' :
  operator_eq sample sample' = false ∧ operator_lt sample sample' = true ∧
  operator_gt sample sample' = false ∧ operator_le sample sample' = true ∧
  operator_ge sample sample' = false.
Proof. repeat split. Qed.

Example subscript_past_the_end :
  subscript sample 4 = ContractViolation "Invalid index: " 4.
Proof. reflexivity. Qed.

Lemma sample_well_formed : well_formed sample.
Proof. split; [reflexivity | lia]. Defined.

Lemma sample'_well_formed : well_formed sample'.
Proof. split; [reflexivity | lia]. Defined.

Lemma index_is_checked_witness :
  at_ sample 4 = ContractViolation "Invalid index: " 4 ∧
  subscript sample (-1) = ContractViolation "Invalid index: " (-1) ∧
  ∃ x, subscript sample 2 = Returned 2%nat ∧ read sample 2%nat = Some x.
Proof.
  destruct (index_is_checked sample 4 sample_well_formed) as [Hhigh _].
  destruct (index_is_checked sample (-1) sample_well_formed) as [Hlow _].
  destruct (index_is_checked sample 2 sample_well_formed) as [_ Hin].
  split; [apply Hhigh; lia|]. split; [apply Hlow; lia|].
  destruct Hin as (x & _ & Hsub & Hread); [lia|]. exists x. split; assumption.
Defined.

Lemma occupancy_is_fixed_witness :
  size (fill sample 7) = 4 ∧ available (fill sample 7) = 0 ∧
  empty (fill sample 7) = false ∧ full (fill sample 7) = true ∧
  Z.of_nat (length (_data (fill sample 7))) = 4.
Proof.
  destruct (occupancy_is_fixed sample (fill sample 7) sample_well_formed)
    as (Hsize & _ & _ & Havailable & Hempty & Hfull & Hlen & _).
  - apply rtc_once, step_fill.
  - repeat split; assumption.
Defined.



End ArrayFacts.

(** ** Further properties of the owning handle *)

Module UniquePtrMoreFacts.
Import UniquePtr UniquePtrFacts.

Section facts.
Context {Deleter : Type} `{!DeleterType Deleter}.
Implicit Types (w : @world Deleter) (u : @unique_ptr Deleter).

Lemma unique_ptr_eta u : {| _ptr := _ptr u; _deleter := _deleter u |} = u.
Proof. by destruct u. Qed.

Lemma world_eta w : {| handles := handles w; disposals := disposals w |} = w.
Proof. by destruct w. Qed.

Lemma pointer_to_bool_operator_bool u :
  pointer_to_bool (_ptr u) = operator_bool u.
Proof. unfold operator_bool, nullptr. by destruct (_ptr u). Qed.

(** Dereference of a handle: [operator*] and [operator->] give the
    managed address when the handle is not empty and halt on the
    assertion when it is. *)
Theorem dereference_is_checked u :
  (operator_bool u = true →
   operator_star u = Value (get u) ∧ operator_arrow u = Value (get u)) ∧
  (operator_bool u = false →
   operator_star u = BasicContractViolation "Managed pointer is null" ∧
   operator_arrow u = BasicContractViolation "Managed pointer is null").
Proof.
  unfold operator_star, operator_arrow, BN_BASIC_ASSERT.
  rewrite pointer_to_bool_operator_bool.
  split; intros ->; done.
Qed.


(** [swap], run on two live handles and on one. *)
Lemma swap_run w a b ua ub :
  a ≠ b →
  handles w !! a = Some ua →
  handles w !! b = Some ub →
  swap a b w =
    Some ((), {| handles := <[b := ua]> (<[a := ub]> (handles w));
                 disposals := disposals w |}).
Proof.
  intros Hab Ea Eb. unfold swap.
  rewrite (bind_run _ _ _ _ _ (load_run _ _ _ Ea)).
  rewrite (bind_run _ _ _ _ _ (load_run _ _ _ Eb)).
  cbn zeta. unfold bn_swap. cbn [fst snd].
  rewrite (bind_run _ _ _ _ _ (write_ptr_run _ _ _ _ Ea)).
  erewrite bind_run;
    [|apply (write_ptr_run _ _ ub); cbn; by rewrite lookup_insert_ne].
  cbn [handles disposals].
  erewrite bind_run;
    [|apply load_run; cbn; rewrite lookup_insert_ne by done; apply lookup_insert_eq].
  erewrite bind_run; [|apply load_run; cbn; apply lookup_insert_eq].
  cbn [_ptr _deleter].
  erewrite bind_run;
    [|eapply write_deleter_run; cbn;
      rewrite lookup_insert_ne by done; apply lookup_insert_eq].
  erewrite write_deleter_run;
    [|cbn; rewrite lookup_insert_ne by done; apply lookup_insert_eq].
  cbn [handles disposals _ptr _deleter]. rewrite !unique_ptr_eta.
  do 3 f_equal. apply map_eq. intros k.
  rewrite !lookup_insert. by repeat case_decide.
Qed.

Lemma swap_self_run w a ua :
  handles w !! a = Some ua → swap a a w = Some ((), w).
Proof.
  intros Ea. unfold swap.
  rewrite !(bind_run _ _ _ _ _ (load_run _ _ _ Ea)).
  cbn zeta. unfold bn_swap. cbn [fst snd].
  rewrite (bind_run _ _ _ _ _ (write_ptr_run _ _ _ _ Ea)).
  erewrite bind_run; [|eapply write_ptr_run; cbn; apply lookup_insert_eq].
  cbn [handles disposals _ptr _deleter].
  erewrite bind_run; [|apply load_run; cbn; apply lookup_insert_eq].
  erewrite bind_run; [|apply load_run; cbn; apply lookup_insert_eq].
  cbn [_ptr _deleter].
  erewrite bind_run; [|eapply write_deleter_run; cbn; apply lookup_insert_eq].
  erewrite write_deleter_run; [|cbn; apply lookup_insert_eq].
  cbn [handles disposals _ptr _deleter].
  rewrite !insert_insert_eq, unique_ptr_eta, insert_id by done.
  by rewrite world_eta.
Qed.


(** A deleter stays with the address it was paired with: after a swap
    the destructors of the two handles apply to each address the deleter
    that came with it. *)
Theorem swap_keeps_deleter_with_object w a b ua ub :
  a ≠ b →
  handles w !! a = Some ua →
  handles w !! b = Some ub →
  (swap a b ≫= λ _, destructor a ≫= λ _, destructor b) w =
    Some ((),
          {| handles := delete b (delete a (handles w));
             disposals :=
               disposals w ++ [(_deleter ub, _ptr ub); (_deleter ua, _ptr ua)] |}).
Proof.
  intros Hab Ea Eb.
  rewrite (bind_run _ _ _ _ _ (swap_run _ _ _ _ _ Hab Ea Eb)).
  erewrite destructor_twice_run;
    [|done|cbn; rewrite lookup_insert_ne by done; apply lookup_insert_eq
     |cbn; apply lookup_insert_eq].
  cbn [handles disposals]. do 3 f_equal.
  apply map_eq. intros k. rewrite !lookup_delete, !lookup_insert.
  repeat case_decide; by simplify_eq.
Qed.

(** The comparison of two handles is the comparison of their addresses:
    exactly one of [a < b], [a == b] and [b < a] holds, and the other
    operators are the usual combinations of these. *)
Theorem handle_order_is_total u v :
  (eq_ptr u v = true ↔ get u = get v) ∧
  (lt_ptr u v = true ↔ (get u < get v)%N) ∧
  ne_ptr u v = negb (eq_ptr u v) ∧
  gt_ptr u v = lt_ptr v u ∧
  le_ptr u v = negb (lt_ptr v u) ∧
  ge_ptr u v = negb (lt_ptr u v) ∧
  le_ptr u v = lt_ptr u v || eq_ptr u v ∧
  (lt_ptr u v = true ∧ eq_ptr u v = false ∧ lt_ptr v u = false ∨
   lt_ptr u v = false ∧ eq_ptr u v = true ∧ lt_ptr v u = false ∨
   lt_ptr u v = false ∧ eq_ptr u v = false ∧ lt_ptr v u = true).
Proof.
  unfold eq_ptr, ne_ptr, lt_ptr, gt_ptr, le_ptr, ge_ptr, get.
  destruct (N.eqb_spec (_ptr u) (_ptr v)) as [Heq|Hne],
    (N.ltb_spec (_ptr u) (_ptr v)) as [Hlt|Hge],
    (N.ltb_spec (_ptr v) (_ptr u)) as [Hgt|Hle],
    (N.leb_spec (_ptr u) (_ptr v)) as [Hle'|Hgt'],
    (N.leb_spec (_ptr v) (_ptr u)) as [Hge'|Hlt'];
    try lia; repeat split; intros; cbn; (done || lia || auto).
Qed.

(** A comparison with [nullptr] gives what the comparison with an empty
    handle gives. *)
Theorem nullptr_is_an_empty_handle u e :
  operator_bool e = false →
  eq_nullptr u = eq_ptr u e ∧ ne_nullptr u = ne_ptr u e ∧
  lt_nullptr u = lt_ptr u e ∧ gt_nullptr u = gt_ptr u e ∧
  le_nullptr u = le_ptr u e ∧ ge_nullptr u = ge_ptr u e.
Proof.
  unfold operator_bool. intros He%negb_false_iff%N.eqb_eq.
  unfold eq_nullptr, ne_nullptr, lt_nullptr, gt_nullptr, le_nullptr,
    ge_nullptr, eq_ptr, ne_ptr, lt_ptr, gt_ptr, le_ptr, ge_ptr.
  rewrite He. unfold nullptr. by destruct (_ptr u).
Qed.

(** Handles that compare equal have the same hash, whatever their
    deleters are and whatever the hashing primitive is. *)
Theorem equal_handles_hash_equally (make_hash : pointer → N) u v :
  eq_ptr u v = true → hash make_hash u = hash make_hash v.
Proof.
  unfold eq_ptr, hash, get. by intros ->%N.eqb_eq.
Qed.

(** The constructors, run for an object that is not alive yet. *)
Lemma construct_run w this ptr :
  handles w !! this = None →
  construct this ptr w =
    Some ((), {| handles := <[this := make_from_pointer ptr]> (handles w);
                 disposals := disposals w |}).
Proof. intros E. unfold construct, begin_lifetime. by rewrite E. Qed.

Lemma construct_default_run w this :
  handles w !! this = None →
  construct_default this w =
    Some ((), {| handles := <[this := default_unique_ptr]> (handles w);
                 disposals := disposals w |}).
Proof. intros E. unfold construct_default, begin_lifetime. by rewrite E. Qed.

(** A handle that is constructed over an address and then destroyed
    applies the default deleter to that address, once, and leaves the
    store as it was; for a default-constructed handle the deleter
    receives the null address. *)
Theorem scoped_handle_disposes_once w this ptr :
  handles w !! this = None →
  (construct this ptr ≫= λ _, destructor this) w =
    Some ((), {| handles := handles w;
                 disposals := disposals w ++ [(deleter_default, ptr)] |}) ∧
  (make_unique this ptr ≫= λ _, destructor this) w =
    Some ((), {| handles := handles w;
                 disposals := disposals w ++ [(deleter_default, ptr)] |}) ∧
  (construct_default this ≫= λ _, destructor this) w =
    Some ((), {| handles := handles w;
                 disposals := disposals w ++ [(deleter_default, nullptr)] |}).
Proof.
  intros E. unfold make_unique.
  rewrite (bind_run _ _ _ _ _ (construct_run _ _ ptr E)).
  rewrite (bind_run _ _ _ _ _ (construct_default_run _ _ E)).
  erewrite !destructor_run by (cbn; apply lookup_insert_eq).
  cbn [handles disposals]. by rewrite !delete_insert_id.
Qed.

(** A handle made by [make_unique] and then moved into a new handle:
    the new handle has the allocated address, the first one is empty,
    no deleter has run; when both are destroyed the address is disposed
    once, by the deleter that moved with it. *)
Theorem make_unique_then_move w first second allocated :
  first ≠ second →
  handles w !! first = None →
  handles w !! second = None →
  ∃ w1 u1 u2,
    (make_unique first allocated ≫= λ _, move_construct second first) w
      = Some ((), w1) ∧
    handles w1 !! first = Some u1 ∧ get u1 = nullptr ∧
    handles w1 !! second = Some u2 ∧ get u2 = allocated ∧
    disposals w1 = disposals w ∧
    (destructor second ≫= λ _, destructor first) w1 =
      Some ((), {| handles := handles w;
                   disposals :=
                     disposals w ++
                       [(_deleter u2, allocated); (_deleter u1, nullptr)] |}).
Proof.
  intros Hne E1 E2. unfold make_unique.
  rewrite (bind_run _ _ _ _ _ (construct_run _ _ allocated E1)).
  erewrite move_construct_run;
    [|cbn; apply lookup_insert_eq|cbn; by rewrite lookup_insert_ne].
  cbn [handles disposals make_from_pointer _ptr _deleter].
  eexists _, _, _. split; [done|]. cbn [handles disposals].
  split; [rewrite lookup_insert_ne by done; apply lookup_insert_eq|].
  split; [done|]. split; [apply lookup_insert_eq|]. split; [done|].
  split; [done|].
  erewrite destructor_twice_run;
    [|done|cbn; apply lookup_insert_eq
     |cbn; rewrite lookup_insert_ne by done; apply lookup_insert_eq].
  cbn [handles disposals _ptr _deleter]. do 3 f_equal.
  apply map_eq. intros k. rewrite !lookup_delete, !lookup_insert.
  repeat case_decide; by simplify_eq.
Qed.

(** Self move assignment, for a null address as well. *)
Lemma move_assign_self_run w this u :
  handles w !! this = Some u →
  move_assign this this w =
    Some ((),
          {| handles :=
               <[this := {| _ptr := _ptr u;
                            _deleter := deleter_self_move_assign (_deleter u) |}]>
                 (handles w);
             disposals :=
               disposals w ++
                 (if decide (_ptr u = nullptr) then [] else [(_deleter u, nullptr)]) |}).
Proof.
  intros E. unfold move_assign.
  rewrite (bind_run _ _ _ _ _ (release_run _ _ _ E)).
  erewrite bind_run; [|eapply reset_to_run; cbn; apply lookup_insert_eq].
  cbn [_ptr _deleter].
  destruct (decide (_ptr u = nullptr)) as [Hp|Hp].
  - erewrite assign_deleter_self_run; [|cbn; apply lookup_insert_eq].
    cbn [handles disposals _ptr _deleter].
    by rewrite insert_insert_eq, app_nil_r, Hp.
  - erewrite assign_deleter_self_run; [|cbn; apply lookup_insert_eq].
    cbn [handles disposals _ptr _deleter]. by rewrite !insert_insert_eq.
Qed.

(** No member runs on a handle that is not alive. *)
Lemma bind_fails {A B} (m : M A) (f : A → M B) w :
  m w = None → (m ≫= f) w = None.
Proof. intros E. unfold mbind, M_bind. by rewrite E. Qed.

Lemma load_dead w this : handles w !! this = None → load this w = None.
Proof. intros E. unfold load. by rewrite E. Qed.

Lemma read_ptr_dead w this : handles w !! this = None → read_ptr this w = None.
Proof. intros E. by apply bind_fails, load_dead. Qed.

Lemma release_dead w this : handles w !! this = None → release this w = None.
Proof. intros E. by apply bind_fails, read_ptr_dead. Qed.

Lemma reset_dead w this : handles w !! this = None → reset this w = None.
Proof. intros E. by apply bind_fails, read_ptr_dead. Qed.

Lemma reset_to_dead w this ptr :
  handles w !! this = None → reset_to this ptr w = None.
Proof. intros E. by apply bind_fails, read_ptr_dead. Qed.

Lemma destructor_dead w this :
  handles w !! this = None → destructor this w = None.
Proof. intros E. by apply bind_fails, reset_dead. Qed.

Lemma begin_lifetime_alive w this u v :
  handles w !! this = Some u → begin_lifetime this v w = None.
Proof. intros E. unfold begin_lifetime. by rewrite E. Qed.

Lemma move_assign_dead w this other :
  handles w !! this = None ∨ handles w !! other = None →
  move_assign this other w = None.
Proof.
  intros Hdead. unfold move_assign.
  destruct (handles w !! other) as [uo|] eqn:Eo;
    [|by apply bind_fails, release_dead].
  destruct Hdead as [Et|?]; [|done].
  rewrite (bind_run _ _ _ _ _ (release_run _ _ _ Eo)).
  apply bind_fails, reset_to_dead. cbn.
  rewrite lookup_insert_ne; [done|]. intros ->. congruence.
Qed.

Lemma move_construct_dead w this other :
  is_Some (handles w !! this) ∨ handles w !! other = None →
  move_construct this other w = None.
Proof.
  intros Hbad. unfold move_construct.
  destruct (handles w !! other) as [uo|] eqn:Eo;
    [|by apply bind_fails, release_dead].
  destruct Hbad as [[ut Et]|?]; [|done].
  rewrite (bind_run _ _ _ _ _ (release_run _ _ _ Eo)).
  erewrite bind_run; [|apply load_run; cbn; apply lookup_insert_eq].
  cbn zeta.
  erewrite bind_run; [|eapply write_deleter_run; cbn; apply lookup_insert_eq].
  unfold begin_lifetime. cbn [handles].
  destruct (decide (this = other)) as [->|Hne].
  - by rewrite lookup_insert_eq.
  - by rewrite !lookup_insert_ne, Et by done.
Qed.

Lemma swap_dead w this other :
  handles w !! this = None ∨ handles w !! other = None →
  swap this other w = None.
Proof.
  intros Hdead. unfold swap.
  destruct (handles w !! this) as [ut|] eqn:Et;
    [|by apply bind_fails, load_dead].
  destruct Hdead as [?|Eo]; [done|].
  rewrite (bind_run _ _ _ _ _ (load_run _ _ _ Et)).
  by apply bind_fails, load_dead.
Qed.

(** What a successful operation has made of the world. *)
Lemma run_operation_inv w o w1 :
  run_operation o w = Some ((), w1) →
  match o with
  | op_construct_default this =>
      handles w !! this = None ∧
      w1 = {| handles := <[this := default_unique_ptr]> (handles w);
              disposals := disposals w |}
  | op_construct this ptr =>
      handles w !! this = None ∧
      w1 = {| handles := <[this := make_from_pointer ptr]> (handles w);
              disposals := disposals w |}
  | op_move_construct this other =>
      ∃ uo, handles w !! other = Some uo ∧ handles w !! this = None ∧
      w1 = {| handles :=
                <[this := {| _ptr := _ptr uo;
                             _deleter := (deleter_move_construct (_deleter uo)).1 |}]>
                  (<[other := {| _ptr := nullptr;
                                 _deleter := (deleter_move_construct (_deleter uo)).2 |}]>
                     (handles w));
              disposals := disposals w |}
  | op_move_assign this other =>
      ∃ ut uo, handles w !! this = Some ut ∧ handles w !! other = Some uo ∧
      (this ≠ other ∧
       w1 = {| handles :=
                 <[other := {| _ptr := nullptr;
                               _deleter := (deleter_move_assign (_deleter ut) (_deleter uo)).2 |}]>
                   (<[this := {| _ptr := _ptr uo;
                                 _deleter := (deleter_move_assign (_deleter ut) (_deleter uo)).1 |}]>
                      (handles w));
               disposals :=
                 disposals w ++
                   (if decide (_ptr ut = _ptr uo) then [] else [(_deleter ut, _ptr ut)]) |}
       ∨
       this = other ∧
       w1 = {| handles :=
                 <[this := {| _ptr := _ptr ut;
                              _deleter := deleter_self_move_assign (_deleter ut) |}]>
                   (handles w);
               disposals :=
                 disposals w ++
                   (if decide (_ptr ut = nullptr) then [] else [(_deleter ut, nullptr)]) |})
  | op_destructor this =>
      ∃ u, handles w !! this = Some u ∧
      w1 = {| handles := delete this (handles w);
              disposals := disposals w ++ [(_deleter u, _ptr u)] |}
  | op_release this =>
      ∃ u, handles w !! this = Some u ∧
      w1 = {| handles := <[this := {| _ptr := nullptr; _deleter := _deleter u |}]> (handles w);
              disposals := disposals w |}
  | op_reset this =>
      ∃ u, handles w !! this = Some u ∧
      w1 = {| handles := <[this := {| _ptr := nullptr; _deleter := _deleter u |}]> (handles w);
              disposals := disposals w ++ [(_deleter u, _ptr u)] |}
  | op_reset_to this ptr =>
      ∃ u, handles w !! this = Some u ∧
      w1 = (if decide (ptr = _ptr u) then w
            else {| handles := <[this := {| _ptr := ptr; _deleter := _deleter u |}]> (handles w);
                    disposals := disposals w ++ [(_deleter u, _ptr u)] |})
  | op_swap this other =>
      ∃ ut uo, handles w !! this = Some ut ∧ handles w !! other = Some uo ∧
      w1 = {| handles := <[other := ut]> (<[this := uo]> (handles w));
              disposals := disposals w |}
  end.
Proof.
  destruct o as [this|this ptr|this other|this other|this|this|this|this ptr|this other];
    cbn [run_operation]; intros Hrun.
  - destruct (handles w !! this) as [u|] eqn:E.
    + unfold construct_default in Hrun.
      by rewrite (begin_lifetime_alive _ _ u) in Hrun.
    + rewrite construct_default_run in Hrun by done. by injection Hrun as <-.
  - destruct (handles w !! this) as [u|] eqn:E.
    + unfold construct in Hrun.
      by rewrite (begin_lifetime_alive _ _ u) in Hrun.
    + rewrite construct_run in Hrun by done. by injection Hrun as <-.
  - destruct (handles w !! other) as [uo|] eqn:Eo;
      [|rewrite move_construct_dead in Hrun by auto; done].
    destruct (handles w !! this) as [ut|] eqn:Et;
      [rewrite move_construct_dead in Hrun by eauto; done|].
    rewrite (move_construct_run _ _ _ _ Eo Et) in Hrun.
    exists uo. by injection Hrun as <-.
  - destruct (handles w !! this) as [ut|] eqn:Et;
      [|rewrite move_assign_dead in Hrun by auto; done].
    destruct (handles w !! other) as [uo|] eqn:Eo;
      [|rewrite move_assign_dead in Hrun by auto; done].
    exists ut, uo. do 2 (split; [done|]).
    destruct (decide (this = other)) as [->|Hne].
    + right. split; [done|].
      rewrite (move_assign_self_run _ _ _ Et) in Hrun. by injection Hrun as <-.
    + left. split; [done|].
      rewrite (move_assign_run _ _ _ _ _ (not_eq_sym Hne) Eo Et) in Hrun.
      by injection Hrun as <-.
  - destruct (handles w !! this) as [u|] eqn:E;
      [|by rewrite destructor_dead in Hrun].
    rewrite (destructor_run _ _ _ E) in Hrun. exists u. by injection Hrun as <-.
  - destruct (handles w !! this) as [u|] eqn:E;
      [|by rewrite bind_fails in Hrun by by apply release_dead].
    rewrite (bind_run _ _ _ _ _ (release_run _ _ _ E)) in Hrun.
    exists u. by injection Hrun as <-.
  - destruct (handles w !! this) as [u|] eqn:E;
      [|by rewrite reset_dead in Hrun].
    rewrite (reset_run _ _ _ E) in Hrun. exists u. by injection Hrun as <-.
  - destruct (handles w !! this) as [u|] eqn:E;
      [|by rewrite reset_to_dead in Hrun].
    rewrite (reset_to_run _ _ _ _ E) in Hrun. exists u. by injection Hrun as <-.
  - destruct (handles w !! this) as [ut|] eqn:Et;
      [|rewrite swap_dead in Hrun by auto; done].
    destruct (handles w !! other) as [uo|] eqn:Eo;
      [|rewrite swap_dead in Hrun by auto; done].
    exists ut, uo. do 2 (split; [done|]).
    destruct (decide (this = other)) as [->|Hne].
    + rewrite (swap_self_run _ _ _ Et) in Hrun. injection Hrun as <-.
      rewrite <- (world_eta w) at 1. f_equal.
      assert (ut = uo) as -> by congruence.
      by rewrite insert_insert_eq, insert_id.
    + rewrite (swap_run _ _ _ _ _ Hne Et Eo) in Hrun. by injection Hrun as <-.
Qed.

(** Case analysis for [unique_owners] of an updated store. *)
Ltac by_unique Huniq :=
  match goal with
  | Hx : handles ?w !! ?x = Some ?ux, Hy : handles ?w !! ?y = Some ?uy
    |- _ptr ?ux ≠ _ptr ?uy =>
      by apply (Huniq x y ux uy)
  end.

Ltac by_fresh Hfresh :=
  match goal with
  | Hx : handles ?w !! ?x = Some ?ux |- _ptr ?ux ≠ _ =>
      by apply (Hfresh x ux)
  | Hx : handles ?w !! ?x = Some ?ux |- _ ≠ _ptr ?ux =>
      by apply not_eq_sym, (Hfresh x ux)
  end.

Ltac owners Huniq :=
  let x := fresh "x" in
  let y := fresh "y" in
  let ux := fresh "ux" in
  let uy := fresh "uy" in
  let Hxy := fresh "Hxy" in
  let Hx := fresh "Hx" in
  let Hy := fresh "Hy" in
  let Hnn := fresh "Hnn" in
  intros x y ux uy Hxy Hx Hy Hnn; cbn [handles] in Hx, Hy;
  rewrite ?lookup_insert, ?lookup_delete in Hx, Hy;
  repeat case_decide; simplify_eq;
  cbn [_ptr make_from_pointer default_unique_ptr] in *;
  try done; try (by apply not_eq_sym); try by_unique Huniq.

Lemma run_operation_keeps_unique_owners w o w1 :
  unique_owners w →
  hands_over_fresh w o →
  run_operation o w = Some ((), w1) →
  unique_owners w1.
Proof.
  intros Huniq Hfresh Hrun. apply run_operation_inv in Hrun.
  destruct o as [this|this ptr|this other|this other|this|this|this|this ptr|this other];
    cbn [hands_over_fresh] in Hfresh.
  - destruct Hrun as [E ->]. owners Huniq.
  - destruct Hrun as [E ->].
    owners Huniq; (destruct Hfresh as [->|Hfresh]; [done|by_fresh Hfresh]).
  - destruct Hrun as (uo & Eo & Et & ->). owners Huniq.
  - destruct Hrun as (ut & uo & Et & Eo & [[Hne ->]|[-> ->]]); owners Huniq.
  - destruct Hrun as (u & E & ->). owners Huniq.
  - destruct Hrun as (u & E & ->). owners Huniq.
  - destruct Hrun as (u & E & ->). owners Huniq.
  - destruct Hrun as (u & E & ->). case_decide; [done|].
    owners Huniq; (destruct Hfresh as [->|Hfresh]; [done|by_fresh Hfresh]).
  - destruct Hrun as (ut & uo & Et & Eo & ->). owners Huniq.
Qed.

(** Single ownership is kept: when no two live handles hold the same
    non-null address, this is still so after any run of constructors,
    moves, destructors, [release], [reset] and [swap], as long as every
    raw address given to a constructor or to [reset] is held by no other
    live handle. *)
Theorem single_ownership_is_kept w os w1 :
  unique_owners w →
  executes w os w1 →
  unique_owners w1.
Proof.
  intros Huniq Hexec. induction Hexec as [w|w o w1 os w2 Hfresh Hrun _ IH]; [done|].
  apply IH. by eapply run_operation_keeps_unique_owners.
Qed.

(** A handle disposes only what it holds: an operation makes at most
    one deleter call, with the deleter of a handle that was alive before
    it and on the address that handle held or on the null address.
    Constructors, [release] and [swap] make none. *)
Theorem handles_dispose_only_what_they_hold w o w1 :
  run_operation o w = Some ((), w1) →
  ∃ calls,
    disposals w1 = disposals w ++ calls ∧
    (length calls ≤ 1)%nat ∧
    (∀ d p, (d, p) ∈ calls →
       ∃ (h : handle) u,
         handles w !! h = Some u ∧ _deleter u = d ∧ (p = _ptr u ∨ p = nullptr)) ∧
    match o with
    | op_construct_default _ | op_construct _ _ | op_move_construct _ _
    | op_release _ | op_swap _ _ => calls = []
    | _ => True
    end.
Proof.
  intros Hrun. apply run_operation_inv in Hrun.
  destruct o as [this|this ptr|this other|this other|this|this|this|this ptr|this other].
  - destruct Hrun as [E ->]. exists []. cbn. rewrite app_nil_r.
    repeat split; [lia|]. intros d p Hin. by apply elem_of_nil in Hin.
  - destruct Hrun as [E ->]. exists []. cbn. rewrite app_nil_r.
    repeat split; [lia|]. intros d p Hin. by apply elem_of_nil in Hin.
  - destruct Hrun as (uo & Eo & Et & ->). exists []. cbn. rewrite app_nil_r.
    repeat split; [lia|]. intros d p Hin. by apply elem_of_nil in Hin.
  - destruct Hrun as (ut & uo & Et & Eo & [[Hne ->]|[-> ->]]);
      eexists; (split; [reflexivity|]); case_decide; cbn;
      (split; [lia|]); (split; [|done]); intros d p Hin.
    + by apply elem_of_nil in Hin.
    + apply list_elem_of_singleton in Hin as [= -> ->]. eauto 10.
    + by apply elem_of_nil in Hin.
    + apply list_elem_of_singleton in Hin as [= -> ->]. eauto 10.
  - destruct Hrun as (u & E & ->). eexists. split; [reflexivity|]. cbn.
    split; [lia|]. split; [|done]. intros d p Hin.
    apply list_elem_of_singleton in Hin as [= -> ->]. eauto 10.
  - destruct Hrun as (u & E & ->). exists []. cbn. rewrite app_nil_r.
    repeat split; [lia|]. intros d p Hin. by apply elem_of_nil in Hin.
  - destruct Hrun as (u & E & ->). eexists. split; [reflexivity|]. cbn.
    split; [lia|]. split; [|done]. intros d p Hin.
    apply list_elem_of_singleton in Hin as [= -> ->]. eauto 10.
  - destruct Hrun as (u & E & ->). case_decide.
    + exists []. rewrite app_nil_r. repeat split; [cbn; lia|].
      intros d p Hin. by apply elem_of_nil in Hin.
    + eexists. split; [reflexivity|]. cbn.
      split; [lia|]. split; [|done]. intros d p Hin.
      apply list_elem_of_singleton in Hin as [= -> ->]. eauto 10.
  - destruct Hrun as (ut & uo & Et & Eo & ->). exists []. cbn. rewrite app_nil_r.
    repeat split; [lia|]. intros d p Hin. by apply elem_of_nil in Hin.
Qed.

Lemma calls_on_cons p (d : Deleter) q (log : list (@disposal Deleter)) :
  calls_on p ((d, q) :: log) =
    ((if decide (q = p) then 1 else 0) + calls_on p log)%nat.
Proof.
  unfold calls_on. rewrite filter_cons. cbn. by destruct (decide (q = p)).
Qed.

(** [reset()] and [reset(nullptr)] differ on an empty handle only: on a
    handle that manages an object they do the same, on an empty one
    [reset()] still calls the deleter, with the null address, and
    [reset(nullptr)] does nothing.  [reset(q)] done twice is [reset(q)]
    done once. *)
Theorem reset_compared_with_reset_to_null w this u :
  handles w !! this = Some u →
  (operator_bool u = true → reset_to this nullptr w = reset this w) ∧
  (operator_bool u = false →
   reset_to this nullptr w = Some ((), w) ∧
   ∃ w1, reset this w = Some ((), w1) ∧
         disposals w1 = disposals w ++ [(_deleter u, nullptr)]) ∧
  (∀ q, (reset_to this q ≫= λ _, reset_to this q) w = reset_to this q w).
Proof.
  intros E. rewrite (reset_run _ _ _ E). split; [|split].
  - unfold operator_bool. intros Hb%negb_true_iff%N.eqb_neq.
    rewrite (reset_to_run _ _ _ _ E). by rewrite decide_False.
  - unfold operator_bool. intros Hb%negb_false_iff%N.eqb_eq.
    rewrite (reset_to_run _ _ _ _ E). rewrite decide_True by done.
    split; [done|]. eexists. split; [done|]. cbn. by rewrite Hb.
  - intros q. rewrite (reset_to_run _ _ _ _ E).
    destruct (decide (q = _ptr u)) as [Hq|Hq].
    + rewrite (bind_run _ _ _ _ _ (reset_to_run _ _ _ _ E)).
      rewrite decide_True by done. rewrite (reset_to_run _ _ _ _ E).
      by rewrite decide_True.
    + rewrite (bind_run _ _ _ _ _ (reset_to_run _ _ _ _ E)).
      rewrite decide_False by done.
      erewrite reset_to_run by (cbn; apply lookup_insert_eq).
      by rewrite decide_True.
Qed.

(** Nothing checks the address given to [reset]: when it is the object
    of another live handle, both handles hold it, and their destructors
    dispose it twice. *)
Theorem shared_address_is_disposed_twice w a b ua ub :
  a ≠ b →
  handles w !! a = Some ua →
  handles w !! b = Some ub →
  _ptr ub ≠ _ptr ua →
  ∃ w1 w2,
    reset_to b (_ptr ua) w = Some ((), w1) ∧
    (_ptr ua ≠ nullptr → ¬ unique_owners w1) ∧
    (destructor a ≫= λ _, destructor b) w1 = Some ((), w2) ∧
    disposals w2 =
      disposals w ++
        [(_deleter ub, _ptr ub); (_deleter ua, _ptr ua); (_deleter ub, _ptr ua)] ∧
    (_ptr ua ≠ nullptr →
     calls_on (_ptr ua) (disposals w2) = S (S (calls_on (_ptr ua) (disposals w)))).
Proof.
  intros Hab Ea Eb Hp. eexists _, _.
  split; [by apply reset_to_run|]. rewrite decide_False by done.
  split; [|split; [|split]].
  - intros Hnn Huniq.
    apply (Huniq a b ua {| _ptr := _ptr ua; _deleter := _deleter ub |});
      cbn; try done.
    + by rewrite lookup_insert_ne.
    + apply lookup_insert_eq.
  - apply destructor_twice_run; cbn; [done| |apply lookup_insert_eq].
    by rewrite lookup_insert_ne.
  - cbn [disposals _ptr _deleter]. by rewrite <- (assoc_L (++)).
  - intros Hnn. cbn [disposals _ptr _deleter].
    rewrite !calls_on_app, !calls_on_cons.
    change (calls_on (_ptr ua) []) with 0%nat.
    repeat case_decide; (congruence || lia).
Qed.

End facts.

Lemma reset_compared_with_reset_to_null_witness :
  reset_to 1%nat nullptr two_handles = reset 1%nat two_handles ∧
  reset_to 1%nat nullptr one_empty_handle = Some ((), one_empty_handle).
Proof.
  split.
  - destruct (reset_compared_with_reset_to_null two_handles 1%nat
                {| _ptr := 64; _deleter := 7%nat |}) as (Hfull & _);
      [reflexivity|].
    apply Hfull. reflexivity.
  - destruct (reset_compared_with_reset_to_null one_empty_handle 1%nat
                {| _ptr := nullptr; _deleter := 7%nat |}) as (_ & Hempty & _);
      [reflexivity|].
    destruct Hempty as [Hnothing _]; [reflexivity|]. exact Hnothing.
Defined.

Lemma shared_address_is_disposed_twice_witness :
  ∃ w1 w2,
    reset_to 2%nat 64 two_handles = Some ((), w1) ∧
    (destructor 1%nat ≫= λ _, destructor 2%nat) w1 = Some ((), w2) ∧
    disposals w2 = [(9%nat, 96); (7%nat, 64); (9%nat, 64)].
Proof.
  destruct (shared_address_is_disposed_twice two_handles 1%nat 2%nat
              {| _ptr := 64; _deleter := 7%nat |}
              {| _ptr := 96; _deleter := 9%nat |})
    as (w1 & w2 & Hreset & _ & Hend & Hlog & _);
    [lia | reflexivity | reflexivity | cbn; lia |].
  exists w1, w2. repeat split; assumption.
Defined.

Lemma dereference_is_checked_witness :
  operator_arrow {| _ptr := 64; _deleter := 7%nat |} = Value 64 ∧
  operator_star {| _ptr := nullptr; _deleter := 7%nat |}
    = BasicContractViolation "Managed pointer is null".
Proof.
  split.
  - destruct (dereference_is_checked {| _ptr := 64; _deleter := 7%nat |}) as [Hfull _].
    apply Hfull. reflexivity.
  - destruct (dereference_is_checked {| _ptr := nullptr; _deleter := 7%nat |})
      as [_ Hempty].
    apply Hempty. reflexivity.
Defined.



Lemma swap_keeps_deleter_with_object_witness :
  (swap 1%nat 2%nat ≫= λ _, destructor 1%nat ≫= λ _, destructor 2%nat) two_handles =
    Some ((), {| handles := ∅; disposals := [(9%nat, 96); (7%nat, 64)] |}).
Proof.
  rewrite (swap_keeps_deleter_with_object two_handles 1%nat 2%nat
             {| _ptr := 64; _deleter := 7%nat |}
             {| _ptr := 96; _deleter := 9%nat |});
    [| lia | reflexivity | reflexivity].
  vm_compute. reflexivity.
Defined.

Lemma nullptr_is_an_empty_handle_witness :
  gt_nullptr {| _ptr := 64; _deleter := 7%nat |}
    = gt_ptr {| _ptr := 64; _deleter := 7%nat |} {| _ptr := nullptr; _deleter := 9%nat |} ∧
  eq_nullptr {| _ptr := 64; _deleter := 7%nat |}
    = eq_ptr {| _ptr := 64; _deleter := 7%nat |} {| _ptr := nullptr; _deleter := 9%nat |}.
Proof.
  destruct (nullptr_is_an_empty_handle
              {| _ptr := 64; _deleter := 7%nat |}
              {| _ptr := nullptr; _deleter := 9%nat |})
    as (Heq & _ & _ & Hgt & _); [reflexivity|].
  split; assumption.
Defined.

Lemma equal_handles_hash_equally_witness :
  hash (λ p, p * 31) {| _ptr := 64; _deleter := 7%nat |}
  = hash (λ p, p * 31) {| _ptr := 64; _deleter := 9%nat |}.
Proof.
  apply (equal_handles_hash_equally (λ p, p * 31)). reflexivity.
Defined.

Lemma scoped_handle_disposes_once_witness :
  (make_unique 3%nat 128 ≫= λ _, destructor 3%nat) two_handles =
    Some ((), {| handles := handles two_handles;
                 disposals := [(deleter_default, 128)] |}).
Proof.
  destruct (scoped_handle_disposes_once two_handles 3%nat 128) as (_ & Hmake & _);
    [reflexivity|].
  exact Hmake.
Defined.

Lemma make_unique_then_move_witness :
  ∃ w1 u1 u2,
    (make_unique 3%nat 128 ≫= λ _, move_construct 4%nat 3%nat) two_handles
      = Some ((), w1) ∧
    handles w1 !! 3%nat = Some u1 ∧ get u1 = nullptr ∧
    handles w1 !! 4%nat = Some u2 ∧ get u2 = 128 ∧
    disposals w1 = [].
Proof.
  destruct (make_unique_then_move two_handles 3%nat 4%nat 128)
    as (w1 & u1 & u2 & Hrun & H1 & Hget1 & H2 & Hget2 & Hlog & _);
    [lia | reflexivity | reflexivity |].
  exists w1, u1, u2. repeat split; assumption.
Defined.

Lemma two_handles_unique_owners : unique_owners two_handles.
Proof.
  intros x y ux uy Hxy Hx Hy _. unfold two_handles in Hx, Hy. cbn [handles] in Hx, Hy.
  rewrite !lookup_insert, lookup_empty in Hx, Hy.
  repeat case_decide; simplify_eq; cbn; done.
Defined.

Lemma single_ownership_is_kept_witness :
  unique_owners
    {| handles :=
         <[1%nat := {| _ptr := 128; _deleter := 7%nat |}]>
           (<[2%nat := {| _ptr := 64; _deleter := 7%nat |}]> ∅);
       disposals := [(9%nat, 96); (7%nat, nullptr)] |}.
Proof.
  apply (single_ownership_is_kept two_handles
           [op_move_assign 2%nat 1%nat; op_reset_to 1%nat 128]).
  - exact two_handles_unique_owners.
  - eapply (executes_cons _ _
              {| handles :=
                   <[1%nat := {| _ptr := nullptr; _deleter := 7%nat |}]>
                     (<[2%nat := {| _ptr := 64; _deleter := 7%nat |}]> ∅);
                 disposals := [(9%nat, 96)] |}).
    + exact I.
    + vm_compute. reflexivity.
    + eapply executes_cons; [| |apply executes_nil].
      * right. intros other u Hother Hu. cbn [handles] in Hu.
        rewrite !lookup_insert, lookup_empty in Hu.
        repeat case_decide; simplify_eq; cbn; done.
      * vm_compute. reflexivity.
Defined.

Lemma handles_dispose_only_what_they_hold_witness :
  ∃ calls,
    [(7%nat, 64)] = [] ++ calls ∧ (length calls ≤ 1)%nat ∧
    ∀ d p, (d, p) ∈ calls →
      ∃ (h : handle) u,
        handles two_handles !! h = Some u ∧ _deleter u = d ∧
        (p = _ptr u ∨ p = nullptr).
Proof.
  destruct (handles_dispose_only_what_they_hold two_handles (op_reset 1%nat)
              {| handles :=
                   <[1%nat := {| _ptr := nullptr; _deleter := 7%nat |}]>
                     (<[2%nat := {| _ptr := 96; _deleter := 9%nat |}]> ∅);
                 disposals := [(7%nat, 64)] |})
    as (calls & Hlog & Hlen & Hheld & _); [vm_compute; reflexivity|].
  exists calls. repeat split; assumption.
Defined.

End UniquePtrMoreFacts.

(** ** Further properties of the fixed sequence *)

Module ArrayMoreFacts.
Import Array ArrayFacts.

Local Open Scope Z_scope.

Section facts.
Context {T : Type} `{!ElementType T} {Size : Z}.
Implicit Types a b : array T Size.

(** [front()] and [back()] have no assertion of their own, and need
    none: they refer to the elements that [operator[]] gives for the
    indices [0] and [Size - 1], which are always in the storage. *)
Theorem front_and_back_are_in_storage a :
  well_formed a →
  front a = Returned 0%nat ∧ front a = subscript a 0 ∧
  back a = Returned (Z.to_nat (Size - 1)) ∧ back a = subscript a (Size - 1) ∧
  ∃ x y, read a 0%nat = Some x ∧ read a (Z.to_nat (Size - 1)) = Some y.
Proof.
  intros Ha. pose proof Ha as [Hlen Hpos].
  destruct (guard_accepts a 0 Ha) as (x & _ & Hfirst & Hx); [lia|].
  destruct (guard_accepts a (Size - 1) Ha) as (y & _ & Hlast & Hy); [lia|].
  unfold front, back. rewrite Hfirst, Hlast, !element_in_storage by lia.
  repeat split; try done. by exists x, y.
Qed.

(** [fill(value)] leaves [Size] copies of [value], whatever the array
    held before: every element reads as [value], and filling again
    overrides the first filling. *)
Theorem fill_assigns_every_element a b (value other_value : T) :
  well_formed a →
  well_formed b →
  _data (fill a value) = replicate (Z.to_nat Size) value ∧
  (∀ i : nat, Z.of_nat i < Size → read (fill a value) i = Some value) ∧
  fill a value = fill b value ∧
  fill (fill a other_value) value = fill a value.
Proof.
  intros Ha Hb.
  assert (Hfill : ∀ c : array T Size, well_formed c →
            _data (fill c value) = replicate (Z.to_nat Size) value).
  { intros c Hc. pose proof (well_formed_length c Hc) as Hlen.
    apply list_eq. intros i. unfold fill, btn_fill, begin, end_. cbn [_data].
    rewrite fill_n_lookup by (cbn; lia).
    case_decide as Hi.
    - symmetry. apply lookup_replicate_2. cbn in Hi. lia.
    - rewrite lookup_ge_None_2 by (cbn in Hi; lia).
      symmetry. apply lookup_replicate_None. cbn in Hi. lia. }
  split; [by apply Hfill|].
  split; [intros i Hi; by apply fill_every_element|].
  assert (Heq : ∀ c d : array T Size, _data c = _data d → c = d)
    by (intros [c] [d]; cbn; by intros ->).
  split; apply Heq; rewrite !Hfill; try done.
  by apply fill_well_formed.
Qed.

(** [swap] always returns and exchanges the contents of the two arrays;
    the friend function does the same, and a second swap gives both
    arrays their contents back. *)
Theorem swap_exchanges_contents a b :
  well_formed a →
  well_formed b →
  swap a b = Returned (b, a) ∧
  friend_swap a b = Returned (b, a) ∧
  (∀ a' b', swap a b = Returned (a', b') → swap a' b' = Returned (a, b)).
Proof.
  intros Ha Hb. unfold friend_swap. rewrite (swap_exchanges a b Ha Hb).
  do 2 (split; [done|]). intros a' b' [= <- <-]. by apply swap_exchanges.
Qed.

(** Writing through the reference that [operator[]] or [at] return and
    reading back: the element at the index is the value written, a
    reference to another position reads what it read before, and the
    array keeps its size. *)
Theorem write_then_read a (index : Z) (value : T) :
  well_formed a →
  0 ≤ index < Size →
  ∃ r,
    subscript a index = Returned r ∧ at_ a index = Returned r ∧
    read (assign a r value) r = Some value ∧
    (∀ r' : reference, r' ≠ r → read (assign a r value) r' = read a r') ∧
    well_formed (assign a r value) ∧
    subscript (assign a r value) index = Returned r.
Proof.
  intros Ha Hin. pose proof (well_formed_length a Ha) as Hlen.
  destruct (guard_accepts a index Ha Hin) as (x & Hat & Hsub & Hx).
  exists (Z.to_nat index). do 2 (split; [done|]).
  unfold read, assign. cbn [_data].
  split; [apply list_lookup_insert_eq; lia|].
  split; [intros r' Hr'; by apply list_lookup_insert_ne|].
  assert (Hwf : well_formed (assign a (Z.to_nat index) value))
    by by apply assign_well_formed.
  split; [done|].
  by destruct (guard_accepts _ index Hwf Hin) as (? & _ & ? & _).
Qed.

(** The iterators: [begin()] to [end()] spans exactly the [Size]
    elements in the order of their indices, the const iterators and
    [data()] are the same positions, and [begin() + index] is the
    element that [operator[]] gives for an index in range. *)
Theorem iterators_span_the_elements a :
  well_formed a →
  range (_data a) (begin a) (end_ a) = _data a ∧
  Z.of_nat (end_ a - begin a) = size a ∧
  cbegin a = begin a ∧ cend a = end_ a ∧ data a = begin a ∧
  ∀ index, 0 ≤ index < Size →
    subscript a index = Returned (begin a + Z.to_nat index)%nat.
Proof.
  intros Ha. pose proof Ha as [Hlen Hpos].
  split; [by apply range_whole|].
  split; [unfold end_, begin, size; cbn; lia|].
  do 3 (split; [done|]). intros index Hin.
  by destruct (guard_accepts a index Ha Hin) as (? & _ & ? & _).
Qed.

End facts.

Section order.
Context {T : Type} `{!ElementType T} `{!ElementOrder T} {Size : Z}.
Implicit Types a b c : array T Size.
Implicit Types l : list T.

(** The operators on well-formed arrays are the range algorithms on the
    whole storage. *)
Lemma operator_eq_data a b :
  well_formed a → well_formed b →
  operator_eq a b = equal (_data a) (_data b).
Proof.
  intros Ha Hb. unfold operator_eq, size. rewrite Z.eqb_refl. cbn [negb].
  by rewrite range_whole.
Qed.

Lemma operator_lt_data a b :
  well_formed a → well_formed b →
  operator_lt a b = lexicographical_compare (_data a) (_data b).
Proof. intros Ha Hb. unfold operator_lt. by rewrite !range_whole. Qed.

Lemma same_length a b :
  well_formed a → well_formed b → length (_data a) = length (_data b).
Proof.
  intros Ha Hb. by rewrite (well_formed_length a Ha), (well_formed_length b Hb).
Qed.

Lemma equal_sym l1 l2 :
  length l1 = length l2 → equal l1 l2 = equal l2 l1.
Proof.
  revert l2. induction l1 as [|x l1 IH]; intros [|y l2] Hlen; try done.
  cbn. rewrite elem_eq_sym, IH; [done|]. cbn in Hlen. lia.
Qed.

Lemma equal_neither_less l1 l2 :
  length l1 = length l2 →
  equal l1 l2 =
    negb (lexicographical_compare l1 l2) && negb (lexicographical_compare l2 l1).
Proof.
  intros Hlen. destruct (equal l1 l2) eqn:Heq.
  - rewrite !lexicographical_compare_equal; try done.
    by rewrite equal_sym.
  - destruct (equal_false_first _ _ Hlen Heq) as (i & x & y & Hx & Hy & Hne & Hbefore).
    rewrite (lexicographical_compare_first l1 l2 i x y) by done.
    rewrite (lexicographical_compare_first l2 l1 i y x); try done.
    + destruct (elem_lt x y) eqn:Hlt; [done|].
      destruct (elem_lt y x) eqn:Hgt; [done|].
      assert (elem_eq x y = true) by (by apply elem_eq_lt). congruence.
    + by rewrite elem_eq_sym.
    + intros j y' x' Hj Hy' Hx'. rewrite elem_eq_sym. by eapply Hbefore.
Qed.

(** [==] is symmetric, and it holds exactly when neither array is less
    than the other; [!=] holds exactly when one of them is less. *)
Theorem equality_agrees_with_order a b :
  well_formed a →
  well_formed b →
  operator_eq a b = operator_eq b a ∧
  operator_eq a b = negb (operator_lt a b) && negb (operator_lt b a) ∧
  operator_ne a b = operator_lt a b || operator_gt a b.
Proof.
  intros Ha Hb. pose proof (same_length a b Ha Hb) as Hlen.
  unfold operator_ne, operator_gt.
  rewrite !operator_eq_data, !operator_lt_data by done.
  split; [by apply equal_sym|].
  rewrite (equal_neither_less _ _ Hlen). split; [done|].
  by destruct (lexicographical_compare _ _), (lexicographical_compare _ _).
Qed.

Lemma lexicographical_compare_asym l1 l2 :
  (∀ x y : T, elem_lt x y = true → elem_lt y x = false) →
  lexicographical_compare l1 l2 = true →
  lexicographical_compare l2 l1 = false.
Proof.
  intros Hasym. revert l2.
  induction l1 as [|x l1 IH]; intros [|y l2]; try done.
  cbn. destruct (elem_lt x y) eqn:Hlt.
  - intros _. by rewrite (Hasym x y).
  - destruct (elem_lt y x) eqn:Hgt; [done|]. apply IH.
Qed.

(** When the element order is asymmetric, exactly one of [a < b],
    [a == b] and [b < a] holds, and [<=] is [<] or [==]. *)
Theorem array_order_is_total a b :
  (∀ x y : T, elem_lt x y = true → elem_lt y x = false) →
  well_formed a →
  well_formed b →
  (operator_lt a b = true ∧ operator_eq a b = false ∧ operator_gt a b = false ∨
   operator_lt a b = false ∧ operator_eq a b = true ∧ operator_gt a b = false ∨
   operator_lt a b = false ∧ operator_eq a b = false ∧ operator_gt a b = true) ∧
  operator_le a b = operator_lt a b || operator_eq a b ∧
  operator_ge a b = operator_gt a b || operator_eq a b.
Proof.
  intros Hasym Ha Hb. pose proof (same_length a b Ha Hb) as Hlen.
  unfold operator_le, operator_ge, operator_gt.
  rewrite !operator_eq_data, !operator_lt_data by done.
  rewrite (equal_neither_less _ _ Hlen).
  pose proof (lexicographical_compare_asym (_data a) (_data b) Hasym) as Hab.
  pose proof (lexicographical_compare_asym (_data b) (_data a) Hasym) as Hba.
  destruct (lexicographical_compare (_data a) (_data b)),
    (lexicographical_compare (_data b) (_data a)); cbn;
    try (by specialize (Hab eq_refl)); naive_solver.
Qed.

Lemma elem_lt_eq_l (x y z : T) :
  (∀ x y z : T, elem_lt x y = true → elem_lt y z = true → elem_lt x z = true) →
  (∀ x y z : T, elem_eq x y = true → elem_eq y z = true → elem_eq x z = true) →
  elem_eq x y = true → elem_lt y z = true → elem_lt x z = true.
Proof.
  intros Htrans Heq Hxy Hyz.
  destruct (elem_lt x z) eqn:Hxz; [done|].
  destruct (elem_lt z x) eqn:Hzx.
  - pose proof (Htrans _ _ _ Hyz Hzx) as Hyx.
    apply elem_eq_lt in Hxy as [_ Hyx']. congruence.
  - assert (Hxz' : elem_eq x z = true) by (by apply elem_eq_lt).
    rewrite elem_eq_sym in Hxy.
    pose proof (Heq _ _ _ Hxy Hxz') as [Hyz' _]%elem_eq_lt. congruence.
Qed.

Lemma elem_lt_eq_r (x y z : T) :
  (∀ x y z : T, elem_lt x y = true → elem_lt y z = true → elem_lt x z = true) →
  (∀ x y z : T, elem_eq x y = true → elem_eq y z = true → elem_eq x z = true) →
  elem_lt x y = true → elem_eq y z = true → elem_lt x z = true.
Proof.
  intros Htrans Heq Hxy Hyz.
  destruct (elem_lt x z) eqn:Hxz; [done|].
  destruct (elem_lt z x) eqn:Hzx.
  - pose proof (Htrans _ _ _ Hzx Hxy) as Hzy.
    apply elem_eq_lt in Hyz as [_ Hzy']. congruence.
  - assert (Hxz' : elem_eq x z = true) by (by apply elem_eq_lt).
    rewrite elem_eq_sym in Hyz.
    pose proof (Heq _ _ _ Hxz' Hyz) as [Hxy' _]%elem_eq_lt. congruence.
Qed.

Lemma lexicographical_compare_trans l1 l2 l3 :
  (∀ x y z : T, elem_lt x y = true → elem_lt y z = true → elem_lt x z = true) →
  (∀ x y z : T, elem_eq x y = true → elem_eq y z = true → elem_eq x z = true) →
  lexicographical_compare l1 l2 = true →
  lexicographical_compare l2 l3 = true →
  lexicographical_compare l1 l3 = true.
Proof.
  intros Htrans Heq. revert l2 l3.
  induction l1 as [|x l1 IH]; intros [|y l2] [|z l3]; try done.
  cbn.
  destruct (elem_lt x y) eqn:Hxy; destruct (elem_lt y z) eqn:Hyz.
  - intros _ _. by rewrite (Htrans x y z).
  - destruct (elem_lt z y) eqn:Hzy; [done|]. intros _ Hrest.
    assert (elem_eq y z = true) by (by apply elem_eq_lt).
    by rewrite (elem_lt_eq_r x y z).
  - destruct (elem_lt y x) eqn:Hyx; [done|]. intros Hrest _.
    assert (elem_eq x y = true) by (by apply elem_eq_lt).
    by rewrite (elem_lt_eq_l x y z).
  - destruct (elem_lt y x) eqn:Hyx; [done|].
    destruct (elem_lt z y) eqn:Hzy; [done|]. intros H12 H23.
    assert (Exy : elem_eq x y = true) by (by apply elem_eq_lt).
    assert (Eyz : elem_eq y z = true) by (by apply elem_eq_lt).
    pose proof (Heq _ _ _ Exy Eyz) as [-> ->]%elem_eq_lt.
    by apply (IH l2 l3).
Qed.

(** When the element order is a strict weak order, so is [<] on arrays:
    no array is less than itself, [a < b] excludes [b < a], and [<] is
    transitive; an array equals itself. *)
Theorem array_order_is_strict a b c :
  (∀ x y : T, elem_lt x y = true → elem_lt y x = false) →
  (∀ x y z : T, elem_lt x y = true → elem_lt y z = true → elem_lt x z = true) →
  (∀ x y z : T, elem_eq x y = true → elem_eq y z = true → elem_eq x z = true) →
  well_formed a →
  well_formed b →
  well_formed c →
  operator_lt a a = false ∧ operator_eq a a = true ∧
  (operator_lt a b = true → operator_lt b a = false) ∧
  (operator_lt a b = true → operator_lt b c = true → operator_lt a c = true).
Proof.
  intros Hasym Htrans Heq Ha Hb Hc.
  rewrite !operator_eq_data, !operator_lt_data by done.
  assert (Hirr : lexicographical_compare (_data a) (_data a) = false).
  { destruct (lexicographical_compare (_data a) (_data a)) eqn:Hlt; [|done].
    by rewrite (lexicographical_compare_asym _ _ Hasym Hlt) in Hlt. }
  split; [done|].
  split; [by rewrite equal_neither_less, Hirr|].
  split; [by apply lexicographical_compare_asym|].
  by apply lexicographical_compare_trans.
Qed.

End order.

Lemma sample_last_well_formed : well_formed sample_last.
Proof. split; [reflexivity | lia]. Defined.

Lemma front_and_back_are_in_storage_witness :
  front sample = Returned 0%nat ∧ back sample = Returned 3%nat ∧
  back sample = subscript sample 3.
Proof.
  destruct (front_and_back_are_in_storage sample sample_well_formed)
    as (Hfront & _ & Hback & Hsub & _).
  repeat split; assumption.
Defined.

Lemma fill_assigns_every_element_witness :
  _data (fill sample 7) = [7; 7; 7; 7] ∧
  fill sample 7 = fill sample' 7 ∧
  fill (fill sample 3) 7 = fill sample 7.
Proof.
  destruct (fill_assigns_every_element sample sample' 7 3
              sample_well_formed sample'_well_formed)
    as (Hdata & _ & Hsame & Hagain).
  repeat split; assumption.
Defined.

Lemma swap_exchanges_contents_witness :
  swap sample sample' = Returned (sample', sample) ∧
  swap sample' sample = Returned (sample, sample').
Proof.
  destruct (swap_exchanges_contents sample sample'
              sample_well_formed sample'_well_formed)
    as (Hswap & _ & Hback).
  split; [assumption|]. apply Hback. assumption.
Defined.

Lemma write_then_read_witness :
  ∃ r,
    subscript sample 2 = Returned r ∧
    read (assign sample r 99) r = Some 99 ∧
    well_formed (assign sample r 99).
Proof.
  destruct (write_then_read sample 2 99 sample_well_formed)
    as (r & Hsub & _ & Hread & _ & Hwf & _); [lia|].
  exists r. repeat split; assumption || apply Hwf.
Defined.

Lemma iterators_span_the_elements_witness :
  range (_data sample) (begin sample) (end_ sample) = [10; 20; 30; 40] ∧
  Z.of_nat (end_ sample - begin sample) = 4.
Proof.
  destruct (iterators_span_the_elements sample sample_well_formed)
    as (Hrange & Hcount & _).
  split; assumption.
Defined.

Lemma equality_agrees_with_order_witness :
  operator_eq sample sample' = operator_eq sample' sample ∧
  operator_ne sample sample' = operator_lt sample sample' || operator_gt sample sample'.
Proof.
  destruct (equality_agrees_with_order sample sample'
              sample_well_formed sample'_well_formed)
    as (Hsym & _ & Hne).
  split; assumption.
Defined.

Lemma int_lt_asym (x y : Z) : elem_lt x y = true → elem_lt y x = false.
Proof. cbn. rewrite Z.ltb_lt, Z.ltb_ge. lia. Defined.

Lemma int_lt_trans (x y z : Z) :
  elem_lt x y = true → elem_lt y z = true → elem_lt x z = true.
Proof. cbn. rewrite !Z.ltb_lt. lia. Defined.

Lemma int_eq_trans (x y z : Z) :
  elem_eq x y = true → elem_eq y z = true → elem_eq x z = true.
Proof. cbn. rewrite !Z.eqb_eq. lia. Defined.

Lemma array_order_is_total_witness :
  operator_lt sample sample' = true ∧ operator_eq sample sample' = false ∧
  operator_gt sample sample' = false ∨
  operator_lt sample sample' = false ∧ operator_eq sample sample' = true ∧
  operator_gt sample sample' = false ∨
  operator_lt sample sample' = false ∧ operator_eq sample sample' = false ∧
  operator_gt sample sample' = true.
Proof.
  destruct (array_order_is_total sample sample' int_lt_asym
              sample_well_formed sample'_well_formed)
    as (Hone & _).
  exact Hone.
Defined.

Lemma array_order_is_strict_witness :
  operator_lt sample sample = false ∧ operator_lt sample sample_last = true.
Proof.
  destruct (array_order_is_strict sample sample' sample_last
              int_lt_asym int_lt_trans int_eq_trans
              sample_well_formed sample'_well_formed sample_last_well_formed)
    as (Hirr & _ & _ & Htrans).
  split; [assumption|]. apply Htrans; reflexivity.
Defined.

End ArrayMoreFacts.
